(** * mstore: a content-addressed store over a transactional key-value engine

    Shallow embedding of the Go package [mstore] (mstore.go, mstore_gc.go)
    and the properties of its public operations.

    Layout of the development:
    - [Bytes]   : Go byte slices as [list byte], conversions to [Z];
    - [MD5]     : the digest behind [GenPK] (crypto/md5);
    - [Base64]  : [base64.StdEncoding.EncodeToString];
    - [Badger]  : the transactional engine the package wraps;
    - the package itself: [GenPK], [Set_] (Go's [Set]), [SetWithTTL],
      [Get], [GetBatch], [Remove], [RemoveBatch], [InitPersistentMode],
      [InitDisklessMode], [IsOpen], [Close], [runGC];
    - the vocabulary of the properties and a few sample states;
    - the properties, one section per operation;
    - further properties: the life cycle of the handle, panics, how the
      operations compose, the reclamation loop over many ticks.

    [Marshal] and [Unmarshal] hand their argument to [encoding/gob]
    ([Unmarshal] after checking that the target is a non-nil pointer) and
    wrap its error; the codec itself is outside the repository and is not
    embedded. *)

From Stdlib Require Import ZArith List String Ascii Lia.
From Stdlib.Strings Require Import Byte.
From Stdlib Require QArith_base.
From stdpp Require Import gmap strings list fin_maps.

Local Open Scope Z_scope.

(* ===================================================================== *)
(** ** Byte slices *)
(* ===================================================================== *)

Module Bytes.

(** A Go [[]byte] whose nil-ness is irrelevant is a [list byte]. *)
Definition byte_to_Z (b : byte) : Z := Z.of_N (Byte.to_N b).

Definition Z_to_byte (z : Z) : byte :=
  match Byte.of_N (Z.to_N (z mod 256)) with
  | Some b => b
  | None => x00
  end.

#[global] Instance byte_eq_dec : EqDecision byte := Byte.byte_eq_dec.

Definition byte_of_N (n : N) : byte :=
  match Byte.of_N n with Some b => b | None => x00 end.

#[global] Instance byte_countable : Countable byte.
Proof.
  apply (inj_countable' Byte.to_N byte_of_N).
  intros b. unfold byte_of_N. now rewrite Byte.of_to_N.
Defined.

(** Text of a Go string literal as bytes. *)
Definition of_string (s : string) : list byte := list_byte_of_string s.

End Bytes.
Import Bytes.

(* ===================================================================== *)
(** ** MD5 (crypto/md5, RFC 1321) *)
(* ===================================================================== *)

Module MD5.

(** Modelled from the spec: the 128-bit content hash of section 4.1.  The
    package obtains it from [crypto/md5] ([md5.New], [h.Write], [h.Sum]),
    which is the RFC 1321 algorithm written out below over 32-bit words
    held in [Z], with the wrap-around explicit. *)

Definition w32 (x : Z) : Z := x mod 2 ^ 32.
Definition add32 (x y : Z) : Z := w32 (x + y).
Definition not32 (x : Z) : Z := Z.lxor x 0xffffffff.
Definition rotl32 (x : Z) (n : Z) : Z :=
  Z.lor (w32 (Z.shiftl x n)) (Z.shiftr x (32 - n)).

Definition shifts : list Z :=
  [ 7; 12; 17; 22; 7; 12; 17; 22; 7; 12; 17; 22; 7; 12; 17; 22;
    5;  9; 14; 20; 5;  9; 14; 20; 5;  9; 14; 20; 5;  9; 14; 20;
    4; 11; 16; 23; 4; 11; 16; 23; 4; 11; 16; 23; 4; 11; 16; 23;
    6; 10; 15; 21; 6; 10; 15; 21; 6; 10; 15; 21; 6; 10; 15; 21 ].

(** [K i = floor (2^32 * abs (sin (i + 1)))]. *)
Definition K : list Z :=
  [ 0xd76aa478; 0xe8c7b756; 0x242070db; 0xc1bdceee; 0xf57c0faf; 0x4787c62a; 0xa8304613; 0xfd469501;
    0x698098d8; 0x8b44f7af; 0xffff5bb1; 0x895cd7be; 0x6b901122; 0xfd987193; 0xa679438e; 0x49b40821;
    0xf61e2562; 0xc040b340; 0x265e5a51; 0xe9b6c7aa; 0xd62f105d; 0x02441453; 0xd8a1e681; 0xe7d3fbc8;
    0x21e1cde6; 0xc33707d6; 0xf4d50d87; 0x455a14ed; 0xa9e3e905; 0xfcefa3f8; 0x676f02d9; 0x8d2a4c8a;
    0xfffa3942; 0x8771f681; 0x6d9d6122; 0xfde5380c; 0xa4beea44; 0x4bdecfa9; 0xf6bb4b60; 0xbebfbc70;
    0x289b7ec6; 0xeaa127fa; 0xd4ef3085; 0x04881d05; 0xd9d4d039; 0xe6db99e5; 0x1fa27cf8; 0xc4ac5665;
    0xf4292244; 0x432aff97; 0xab9423a7; 0xfc93a039; 0x655b59c3; 0x8f0ccc92; 0xffeff47d; 0x85845dd1;
    0x6fa87e4f; 0xfe2ce6e0; 0xa3014314; 0x4e0811a1; 0xf7537e82; 0xbd3af235; 0x2ad7d2bb; 0xeb86d391 ].

Record digest_state := mkState { sA : Z; sB : Z; sC : Z; sD : Z }.

Definition init_state : digest_state :=
  mkState 0x67452301 0xefcdab89 0x98badcfe 0x10325476.

(** Little-endian packing of words. *)
Definition le32_bytes (x : Z) : list byte :=
  [ Z_to_byte x; Z_to_byte (Z.shiftr x 8);
    Z_to_byte (Z.shiftr x 16); Z_to_byte (Z.shiftr x 24) ].

Definition le64_bytes (x : Z) : list byte :=
  le32_bytes (w32 x) ++ le32_bytes (w32 (Z.shiftr x 32)).

Definition le32_word (bs : list byte) : Z :=
  fold_right (fun b acc => byte_to_Z b + 256 * acc) 0 (firstn 4 bs).

Fixpoint words (n : nat) (bs : list byte) : list Z :=
  match n with
  | O => []
  | S n' => le32_word bs :: words n' (skipn 4 bs)
  end.

(** One of the 64 steps on a block whose 16 words are [M]. *)
Definition step (M : list Z) (st : digest_state) (i : nat) : digest_state :=
  let '(mkState a b c d) := st in
  let '(f, g) :=
    if (i <? 16)%nat then (Z.lor (Z.land b c) (Z.land (not32 b) d), i)
    else if (i <? 32)%nat then
      (Z.lor (Z.land d b) (Z.land (not32 d) c), ((5 * i + 1) mod 16)%nat)
    else if (i <? 48)%nat then
      (Z.lxor (Z.lxor b c) d, ((3 * i + 5) mod 16)%nat)
    else (Z.lxor c (Z.lor b (not32 d)), ((7 * i) mod 16)%nat) in
  let f' := add32 (add32 (add32 f a) (nth i K 0)) (nth g M 0) in
  mkState d (add32 b (rotl32 f' (nth i shifts 0))) b c.

Definition block (st : digest_state) (blk : list byte) : digest_state :=
  let M := words 16 blk in
  let '(mkState a b c d) := fold_left (step M) (seq 0 64) st in
  mkState (add32 (sA st) a) (add32 (sB st) b)
          (add32 (sC st) c) (add32 (sD st) d).

(** Padding: one [0x80], zeros up to 56 modulo 64, the bit length. *)
Definition pad (data : list byte) : list byte :=
  let len := Z.of_nat (length data) in
  let zeros := Z.to_nat ((55 - len) mod 64) in
  data ++ x80 :: repeat x00 zeros ++ le64_bytes (len * 8 mod 2 ^ 64).

Fixpoint blocks (n : nat) (st : digest_state) (bs : list byte)
  : digest_state :=
  match n with
  | O => st
  | S n' => blocks n' (block st (firstn 64 bs)) (skipn 64 bs)
  end.

(** Modelled from the spec: the digest of [data], what
    [h := md5.New(); h.Write(data); h.Sum(nil)] returns. *)
Definition sum (data : list byte) : list byte :=
  let p := pad data in
  let '(mkState a b c d) := blocks (length p / 64) init_state p in
  le32_bytes a ++ le32_bytes b ++ le32_bytes c ++ le32_bytes d.

Definition Size : nat := 16.

End MD5.

(* ===================================================================== *)
(** ** Base64 (encoding/base64, StdEncoding) *)
(* ===================================================================== *)

Module Base64.

(** Modelled from the spec: the text-safe key encoding of section 4.4.
    The package uses [base64.StdEncoding.EncodeToString]: the RFC 4648
    alphabet, three bytes to four characters, padded with [=]. *)

Definition encodeStd : string :=
  "ABCDEFGHIJKLMNOPQRSTUVWXYZabcdefghijklmnopqrstuvwxyz0123456789+/".

Definition StdPadding : ascii := "="%char.

Definition alphabet : list ascii := list_ascii_of_string encodeStd.

Definition enc (i : Z) : ascii := nth (Z.to_nat i) alphabet StdPadding.

(** The 24-bit group of up to three source bytes. *)
Definition group (b0 b1 b2 : byte) : Z :=
  Z.lor (Z.lor (Z.shiftl (byte_to_Z b0) 16) (Z.shiftl (byte_to_Z b1) 8))
        (byte_to_Z b2).

Definition sextet (val : Z) (k : Z) : Z := Z.land (Z.shiftr val k) 0x3F.

(** Modelled from the spec: [base64.StdEncoding.EncodeToString], full
    groups of three bytes first, then the padded remainder. *)
Fixpoint EncodeToString (src : list byte) : string :=
  match src with
  | [] => EmptyString
  | [b0] =>
      let val := group b0 x00 x00 in
      String (enc (sextet val 18)) (String (enc (sextet val 12))
        (String StdPadding (String StdPadding EmptyString)))
  | [b0; b1] =>
      let val := group b0 b1 x00 in
      String (enc (sextet val 18)) (String (enc (sextet val 12))
        (String (enc (sextet val 6)) (String StdPadding EmptyString)))
  | b0 :: b1 :: b2 :: rest =>
      let val := group b0 b1 b2 in
      String (enc (sextet val 18)) (String (enc (sextet val 12))
        (String (enc (sextet val 6)) (String (enc (sextet val 0))
          (EncodeToString rest))))
  end.

End Base64.

(* ===================================================================== *)
(** ** The engine (github.com/dgraph-io/badger/v3) *)
(* ===================================================================== *)

Module Badger.

(** Modelled from the spec: the transactional key-value engine of
    section 6, the collaborator the package wraps.  It is not part of
    this repository; what follows is its contract as the package uses
    it: open and close, update and read-only transactions with get, set,
    delete, commit and discard, snapshot iteration, entry-level expiry,
    and the key checks every write goes through.  Failures of the
    medium (I/O, size limits of values and batches) are supplied from
    outside where the package can observe them ([Open]) and are
    otherwise left out. *)

Inductive Error :=
| ErrKeyNotFound | ErrEmptyKey | ErrInvalidKey | ErrKeyTooLarge
| ErrReadOnlyTxn | ErrDiscardedTxn | ErrDBClosed | ErrBlockedWrites
| ErrNoRewrite | ErrRejected | ErrGCInMemoryMode
| ErrOpen (reason : string).

#[global] Instance Error_eq_dec : EqDecision Error.
Proof. solve_decision. Defined.

(** What the table keeps for a key. *)
Record Item := mkItem { item_value : list byte; item_expiresAt : Z }.

#[global] Instance Item_eq_dec : EqDecision Item.
Proof. solve_decision. Defined.

(** A write travelling through a transaction. *)
Record Entry := mkEntry {
  Key : list byte;
  Value : list byte;
  ExpiresAt : Z;          (* uint64, Unix seconds; 0 = never *)
  bitDelete : bool
}.

Record Options := mkOptions {
  Dir : string;
  SyncWrites : bool;
  InMemory : bool;
  Logger : bool
}.

Definition DefaultOptions (path : string) : Options :=
  mkOptions path false false true.
Definition WithSyncWrites (val : bool) (o : Options) : Options :=
  mkOptions (Dir o) val (InMemory o) (Logger o).
Definition WithInMemory (b : bool) (o : Options) : Options :=
  mkOptions (Dir o) (SyncWrites o) b (Logger o).
Definition WithLogger (l : bool) (o : Options) : Options :=
  mkOptions (Dir o) (SyncWrites o) (InMemory o) l.

Record DB := mkDB {
  opt : Options;
  closed : bool;
  table : gmap (list byte) Item
}.

Record Txn := mkTxn {
  update : bool;
  discarded : bool;
  pendingWrites : list Entry
}.

(** The file system: what each directory holds between runs. *)
Definition FS := gmap string (gmap (list byte) Item).

(** *** Time and expiry *)

(** [time.Time] is nanoseconds since the epoch, [time.Duration]
    nanoseconds; the engine keeps expiry in whole Unix seconds as a
    [uint64]. *)
Definition Unix (t : Z) : Z := t / 1000000000.
Definition uint64 (x : Z) : Z := x mod 2 ^ 64.

Definition NewEntry (key value : list byte) : Entry :=
  mkEntry key value 0 false.

(** Modelled from the spec: the expiry tag, [now + ttl] in the engine's
    unit: [ExpiresAt = uint64(time.Now().Add(dur).Unix())]. *)
Definition WithTTL (now dur : Z) (e : Entry) : Entry :=
  mkEntry (Key e) (Value e) (uint64 (Unix (now + dur))) (bitDelete e).

(** Modelled from the spec: an entry past its expiry behaves as absent;
    an expiry of 0 means none. *)
Definition isDeletedOrExpired (now : Z) (deleted : bool) (expiresAt : Z)
  : bool :=
  if deleted then true
  else if expiresAt =? 0 then false
  else expiresAt <=? uint64 (Unix now).

Definition live (now : Z) (it : Item) : bool :=
  negb (isDeletedOrExpired now false (item_expiresAt it)).

(** *** Transactions *)

Definition NewTransaction (upd : bool) : Txn := mkTxn upd false [].

Definition Discard (t : Txn) : Txn :=
  mkTxn (update t) true (pendingWrites t).

Definition badgerPrefix : list byte := of_string "!badger!".
Definition maxKeySize : Z := 65000.

Fixpoint HasPrefix (s prefix : list byte) : bool :=
  match prefix, s with
  | [], _ => true
  | _ :: _, [] => false
  | p :: prefix', c :: s' =>
      if decide (p = c) then HasPrefix s' prefix' else false
  end.

(** Modelled from the spec: the checks every write of an update
    transaction goes through before it is queued. *)
Definition modify (t : Txn) (e : Entry) : option Error * Txn :=
  if negb (update t) then (Some ErrReadOnlyTxn, t)
  else if discarded t then (Some ErrDiscardedTxn, t)
  else if (length (Key e) =? 0)%nat then (Some ErrEmptyKey, t)
  else if HasPrefix (Key e) badgerPrefix then (Some ErrInvalidKey, t)
  else if maxKeySize <? Z.of_nat (length (Key e))
  then (Some ErrKeyTooLarge, t)
  else (None, mkTxn (update t) (discarded t) (pendingWrites t ++ [e])).

Definition Txn_Set (t : Txn) (key val : list byte) : option Error * Txn :=
  modify t (NewEntry key val).

Definition Txn_SetEntry (t : Txn) (e : Entry) : option Error * Txn :=
  modify t e.

Definition Txn_Delete (t : Txn) (key : list byte) : option Error * Txn :=
  modify t (mkEntry key [] 0 true).

Definition apply_entry (tbl : gmap (list byte) Item) (e : Entry)
  : gmap (list byte) Item :=
  if bitDelete e then delete (Key e) tbl
  else <[Key e := mkItem (Value e) (ExpiresAt e)]> tbl.

(** Modelled from the spec: commit makes all queued writes visible at
    once.  The package runs one transaction at a time and its update
    transactions read nothing, so there are no conflicts to detect. *)
Definition Commit (t : Txn) (d : DB) : option Error * DB :=
  if discarded t then (Some ErrDiscardedTxn, d)
  else match pendingWrites t with
       | [] => (None, d)
       | _ :: _ =>
           if closed d then (Some ErrBlockedWrites, d)
           else (None, mkDB (opt d) (closed d)
                         (foldl apply_entry (table d) (pendingWrites t)))
       end.

(** Modelled from the spec: a read finds the live record of the key or
    fails with [ErrKeyNotFound]. *)
Definition Txn_Get (t : Txn) (d : DB) (now : Z) (key : list byte)
  : Error + Item :=
  if (length key =? 0)%nat then inl ErrEmptyKey
  else if discarded t then inl ErrDiscardedTxn
  else match table d !! key with
       | None => inl ErrKeyNotFound
       | Some it =>
           if isDeletedOrExpired now false (item_expiresAt it)
           then inl ErrKeyNotFound else inr it
       end.

(** [item.Value(fn)] hands the stored bytes to [fn]. *)
Definition Item_Value {S} (it : Item)
    (fn : list byte -> S -> option Error * S) (s : S) : option Error * S :=
  fn (item_value it) s.

(** Modelled from the spec: the items an iterator of a read transaction
    passes over, the live ones, each key once.  The engine goes through
    them in key order; the package only fills a map from them, so the
    order of [map_to_list] serves as well. *)
Definition iter_items (d : DB) (now : Z) : list (list byte * Item) :=
  filter (fun kv => live now kv.2 = true) (map_to_list (table d)).

(** *** Opening and closing *)

(** Modelled from the spec: opening binds to the directory of the
    options, or to an empty table in memory; [io] is the answer of the
    medium, an error when the directory cannot be opened. *)
Definition Open (io : option Error) (fs : FS) (o : Options) : Error + DB :=
  match io with
  | Some e => inl e
  | None =>
      inr (mkDB o false
             (if InMemory o then ∅ else default ∅ (fs !! Dir o)))
  end.

Definition IsClosed (d : DB) : bool := closed d.

(** Modelled from the spec: closing leaves the table of a disk-backed
    instance in its directory. *)
Definition Close (d : DB) (fs : FS) : DB * FS :=
  (mkDB (opt d) true (table d),
   if InMemory (opt d) then fs else <[Dir (opt d) := table d]> fs).

End Badger.

(* ===================================================================== *)
(** ** Package mstore: state *)
(* ===================================================================== *)

(** Go's [error]: the package makes its own with [errors.New] and passes
    the engine's through. *)
Inductive error :=
| errors_New (msg : string)
| badger_error (e : Badger.Error).

#[global] Instance error_eq_dec : EqDecision error.
Proof. solve_decision. Defined.

(** The error kinds of the specification, by the text the package gives
    them. *)
Definition NotOpenError : error := errors_New "the storage is not open".
Definition AlreadyOpenError : error :=
  errors_New "cannot renitialize db while it is still open".
Definition EmptyInputError : error := errors_New "data for key is empty".
Definition DuplicateKeyError : error :=
  errors_New "the entity already exists".
Definition InvalidKeyError : error := errors_New "invalid key".
Definition NotFoundError : error := errors_New "key not found".

(** A returned [[]byte] that callers compare with [nil]. *)
Definition slice := option (list byte).

Definition STORAGE_PATH : string := "/tmp/golog.d".

(** Calls that reach the engine, in order (a ghost record). *)
Inductive Call :=
| CallOpen (o : Badger.Options)
| CallClose
| CallNewTransaction (upd : bool)
| CallView
| CallCommit
| CallDiscard.

(** The package variables [db] and [isOpen], and the world around them:
    the clock the engine reads, the directories on disk, the [runGC]
    goroutines started so far. *)
Record World := mkWorld {
  db : option Badger.DB;
  isOpen : bool;
  clock : Z;
  fs : Badger.FS;
  gcLoops : nat;
  calls : list Call
}.

Definition set_db (d : option Badger.DB) (w : World) : World :=
  mkWorld d (isOpen w) (clock w) (fs w) (gcLoops w) (calls w).
Definition set_isOpen (b : bool) (w : World) : World :=
  mkWorld (db w) b (clock w) (fs w) (gcLoops w) (calls w).
Definition set_fs (f : Badger.FS) (w : World) : World :=
  mkWorld (db w) (isOpen w) (clock w) f (gcLoops w) (calls w).
Definition spawn_gc (w : World) : World :=
  mkWorld (db w) (isOpen w) (clock w) (fs w) (S (gcLoops w)) (calls w).
Definition record (c : Call) (w : World) : World :=
  mkWorld (db w) (isOpen w) (clock w) (fs w) (gcLoops w) (calls w ++ [c]).
Definition sleep (dur : Z) (w : World) : World :=
  mkWorld (db w) (isOpen w) (clock w + dur) (fs w) (gcLoops w) (calls w).

(** The process before any call: nothing bound, not open. *)
Definition start (now : Z) (f : Badger.FS) : World :=
  mkWorld None false now f 0 [].

(** *** Outcomes: a call returns, or the goroutine panics *)

Inductive Outcome (A : Type) :=
| Ret (a : A) (w : World)
| Panic (msg : string).
Arguments Ret {A} a w.
Arguments Panic {A} msg.

Definition M (A : Type) : Type := World -> Outcome A.

#[global] Instance M_ret : MRet M := fun A a w => Ret a w.
#[global] Instance M_bind : MBind M := fun A B f m w =>
  match m w with
  | Ret a w' => f a w'
  | Panic msg => Panic msg
  end.

Definition nil_dereference : string :=
  "invalid memory address or nil pointer dereference".

(** Method calls on the package variable [db]; a nil [db] panics. *)
Definition db_NewTransaction (upd : bool) : M Badger.Txn := fun w =>
  match db w with
  | None => Panic nil_dereference
  | Some _ => Ret (Badger.NewTransaction upd) (record (CallNewTransaction upd) w)
  end.

Definition txn_Commit (t : Badger.Txn) : M (option error) := fun w =>
  match db w with
  | None => Panic nil_dereference
  | Some d =>
      let '(err, d') := Badger.Commit t d in
      Ret (badger_error <$> err) (record CallCommit (set_db (Some d') w))
  end.

Definition txn_Discard (t : Badger.Txn) : M unit := fun w =>
  Ret tt (record CallDiscard w).

(** [db.View(fn)]: [fn] runs in a read-only transaction; [S] is what the
    closure captures and assigns. *)
Definition db_View {S} (fn : Badger.Txn -> Badger.DB -> Z -> S -> option error * S)
    (s : S) : M (option error * S) := fun w =>
  match db w with
  | None => Panic nil_dereference
  | Some d =>
      if Badger.IsClosed d
      then Ret (Some (badger_error Badger.ErrDBClosed), s) (record CallView w)
      else Ret (fn (Badger.NewTransaction false) d (clock w) s)
               (record CallView w)
  end.

(* ===================================================================== *)
(** ** Package mstore: operations (mstore.go) *)
(* ===================================================================== *)

(** The [hash.Hash] of [md5.New()]: the bytes written so far.  [Write]
    never fails. *)
Definition md5_New : list byte := [].
Definition md5_Write (h data : list byte) : list byte * (nat * option error) :=
  (h ++ data, (length data, None)).
Definition md5_Sum (h b : list byte) : list byte := b ++ MD5.sum h.

Definition bytes (s : slice) : list byte := default [] s.

Definition GenPK (data : list byte) : slice * option error :=
  if (length data =? 0)%nat then (None, Some EmptyInputError)
  else
    let h := md5_New in
    let '(h, (_, err)) := md5_Write h data in
    match err with
    | Some e => (None, Some e)
    | None => (Some (md5_Sum h []), None)
    end.

(** Get retrieves the value from the data store. *)
Definition Get (key : list byte) : M (slice * option error) := fun w =>
  if negb (isOpen w) then Ret (None, Some NotOpenError) w
  else if negb (length key =? 16)%nat
  then Ret (None, Some InvalidKeyError) w
  else
    ('(err, value) ←
       db_View (fun txn d now (value : slice) =>
                  match Badger.Txn_Get txn d now key with
                  | inl _ => (Some NotFoundError, value)
                  | inr item =>
                      let '(_, value) :=
                        Badger.Item_Value item
                          (fun val _ => (None, Some ([] ++ val))) value in
                      (None, value)
                  end) None;
     match err with
     | Some e => mret (None, Some e)
     | None => mret (value, None)
     end) w.

(** Set adds an event to the cache. *)
Definition Set_ (data : list byte) : M (slice * option error) := fun w =>
  if negb (isOpen w) then Ret (None, Some NotOpenError) w
  else
    match GenPK data with
    | (_, Some err) => Ret (None, Some err) w
    | (key, None) =>
        ('(e, _) ← Get (bytes key);
         match e with
         | Some _ => mret (None, Some DuplicateKeyError)
         | None =>
             txn ← db_NewTransaction true;
             match Badger.Txn_Set txn (bytes key) data with
             | (Some err, txn) =>
                 _ ← txn_Discard txn; mret (None, Some (badger_error err))
             | (None, txn) =>
                 err ← txn_Commit txn;
                 match err with
                 | Some err => mret (None, Some err)
                 | None => mret (key, None)
                 end
             end
         end) w
    end.

(** SetWithTTL saves an item that only exists for the time set in [ttl]. *)
Definition SetWithTTL (data : list byte) (ttl : Z)
  : M (slice * option error) := fun w =>
  if negb (isOpen w) then Ret (None, Some NotOpenError) w
  else
    match GenPK data with
    | (_, Some err) => Ret (None, Some err) w
    | (key, None) =>
        (txn ← db_NewTransaction true;
         let entry :=
           Badger.WithTTL (clock w) ttl (Badger.NewEntry (bytes key) data) in
         match Badger.Txn_SetEntry txn entry with
         | (Some err, txn) =>
             _ ← txn_Discard txn; mret (None, Some (badger_error err))
         | (None, txn) =>
             err ← txn_Commit txn;
             match err with
             | Some err => mret (None, Some err)
             | None => mret (key, None)
             end
         end) w
    end.

(** The iteration of GetBatch: [me[k] = v] for each item in turn. *)
Fixpoint batch_loop (items : list (list byte * Badger.Item))
    (me : gmap string (list byte)) : option error * gmap string (list byte) :=
  match items with
  | [] => (None, me)
  | (key, item) :: rest =>
      let k := Base64.EncodeToString key in
      match Badger.Item_Value item (fun v me => (None, <[k := v]> me)) me with
      | (Some err, me) => (Some (badger_error err), me)
      | (None, me) => batch_loop rest me
      end
  end.

Definition GetBatch : M (option (gmap string (list byte)) * option error) :=
  fun w =>
  if negb (isOpen w) then Ret (None, Some NotOpenError) w
  else
    ('(err, me) ←
       db_View (fun txn d now me => batch_loop (Badger.iter_items d now) me) ∅;
     mret (Some me, err)) w.

(** Removes an entry based on the given key. *)
Definition Remove (key : list byte) : M (option error) := fun w =>
  if negb (isOpen w) then Ret (Some NotOpenError) w
  else
    (txn ← db_NewTransaction true;
     match Badger.Txn_Delete txn key with
     | (Some err, txn) =>
         _ ← txn_Discard txn; mret (Some (badger_error err))
     | (None, txn) =>
         err ← txn_Commit txn;
         _ ← txn_Discard txn; mret err
     end) w.

(** The loop of RemoveBatch over [keys]. *)
Fixpoint remove_loop (keys : list (list byte)) (errs : gmap string error)
  : M (gmap string error) :=
  match keys with
  | [] => mret errs
  | k :: rest =>
      if (length k =? 0)%nat then remove_loop rest errs
      else
        err ← Remove k;
        match err with
        | Some err => remove_loop rest (<[Base64.EncodeToString k := err]> errs)
        | None => remove_loop rest errs
        end
  end.

(** Removes a batch of keys. *)
Definition RemoveBatch (keys : list (list byte))
  : M (bool * gmap string error) :=
  txn ← db_NewTransaction true;
  errs ← remove_loop keys ∅;
  _ ← txn_Discard txn;
  mret (bool_decide (size errs = 0%nat), errs).

(** IsOpen indicates if the internal database is open or not. *)
Definition IsOpen : M bool := fun w => Ret (isOpen w) w.

(** Close closes down the internal database. *)
Definition Close : M (option error) := fun w =>
  match db w with
  | None => Ret None (set_isOpen false w)
  | Some d =>
      if Badger.IsClosed d then Ret None (set_isOpen false w)
      else
        let '(d', fs') := Badger.Close d (fs w) in
        Ret None
          (record CallClose (set_fs fs' (set_db (Some d') (set_isOpen false w))))
  end.

(** The guard [db != nil && !db.IsClosed()]. *)
Definition still_open (w : World) : bool :=
  match db w with
  | Some d => negb (Badger.IsClosed d)
  | None => false
  end.

(** InitPersistentMode ensures that the data store is ready.  [io] is
    what the medium answers when the engine opens it. *)
Definition InitPersistentMode (io : option Badger.Error) : M (option error) :=
  fun w =>
  if still_open w then Ret (Some AlreadyOpenError) w
  else
    let opts :=
      Badger.WithSyncWrites false (Badger.DefaultOptions STORAGE_PATH) in
    let opts := Badger.WithLogger false opts in
    match Badger.Open io (fs w) opts with
    | inl err => Ret (Some (badger_error err)) (record (CallOpen opts) w)
    | inr d =>
        (* go runGC(); db = d; isOpen = true *)
        Ret None
          (set_isOpen true
             (set_db (Some d) (spawn_gc (record (CallOpen opts) w))))
    end.

(** InitDisklessMode ensures that the data store is a memory-only store. *)
Definition InitDisklessMode (io : option Badger.Error) : M (option error) :=
  fun w =>
  if still_open w then Ret (Some AlreadyOpenError) w
  else
    let opts := Badger.WithInMemory true (Badger.DefaultOptions "") in
    let opts := Badger.WithLogger false opts in
    match Badger.Open io (fs w) opts with
    | inl err => Ret (Some (badger_error err)) (record (CallOpen opts) w)
    | inr d =>
        Ret None
          (set_isOpen true
             (set_db (Some d) (spawn_gc (record (CallOpen opts) w))))
    end.

(* ===================================================================== *)
(** ** Package mstore: the reclamation loop (mstore_gc.go) *)
(* ===================================================================== *)

Definition DISCARD_RATIO : QArith_base.Q := QArith_base.Qmake 1 2.
Definition GC_INTERVAL : Z := 10 * (60 * 1000000000).

Definition gc_failed : string := "data store garbage collection failed".

(** What the loop does, as seen from outside. *)
Inductive GCEvent :=
| EvTick (interval : Z)
| EvRunValueLogGC (discardRatio : QArith_base.Q)
| EvLog (msg : string)
| EvSync.

(** The body of one tick, from the label [again] on.  [results] are the
    engine's answers to the successive [db.RunValueLogGC] calls: [None]
    when a pass rewrote a file, [Some ErrNoRewrite] when there was
    nothing to reclaim, another error when the pass failed.  The result
    is [None] when the answers run out before the body is through. *)
Fixpoint again (results : list (option Badger.Error))
  : option (list GCEvent * list (option Badger.Error)) :=
  match results with
  | [] => None
  | Some err :: rest =>
      Some ([EvRunValueLogGC DISCARD_RATIO; EvLog gc_failed; EvSync], rest)
  | None :: rest =>
      (* goto again *)
      '(evs, rest') ← again rest;
      Some (EvRunValueLogGC DISCARD_RATIO :: evs, rest')
  end.

(** [runGC], over the first [ticks] ticks of the ticker. *)
Fixpoint runGC (ticks : nat) (results : list (option Badger.Error))
  : option (list GCEvent) :=
  match ticks with
  | O => Some []
  | S ticks' =>
      '(evs, rest) ← again results;
      evs' ← runGC ticks' rest;
      Some (EvTick GC_INTERVAL :: evs ++ evs')
  end.

(* ===================================================================== *)
(** ** Vocabulary of the properties *)
(* ===================================================================== *)

(** The handle is open on the engine instance [d]. *)
Definition OpenOn (w : World) (d : Badger.DB) : Prop :=
  isOpen w = true ∧ db w = Some d ∧ Badger.closed d = false.

(** The checks of [Badger.modify] that depend on the key alone. *)
Definition check_key (key : list byte) : option Badger.Error :=
  if (length key =? 0)%nat then Some Badger.ErrEmptyKey
  else if Badger.HasPrefix key Badger.badgerPrefix
  then Some Badger.ErrInvalidKey
  else if Badger.maxKeySize <? Z.of_nat (length key)
  then Some Badger.ErrKeyTooLarge
  else None.

(** The records a reader sees at time [now]: those not past expiry. *)
Definition live_table (d : Badger.DB) (now : Z) : gmap (list byte) Badger.Item :=
  filter (fun kv => Badger.live now kv.2 = true) (Badger.table d).

(** The table the handle is bound to after a write. *)
Definition with_table (tbl : gmap (list byte) Badger.Item) (d : Badger.DB)
  : Badger.DB :=
  Badger.mkDB (Badger.opt d) (Badger.closed d) tbl.

(** Every key is the digest of the payload stored under it. *)
Definition stored_by_GenPK (tbl : gmap (list byte) Badger.Item) : Prop :=
  map_Forall (fun k it => GenPK (Badger.item_value it) = (Some k, None)) tbl.

(** Every key went through the engine's checks. *)
Definition keys_checked (tbl : gmap (list byte) Badger.Item) : Prop :=
  map_Forall (fun k _ => check_key k = None) tbl.

(** A property of records that holds of every table: the one the handle
    is bound to and those on disk. *)
Definition tables_inv (P : list byte -> Badger.Item -> Prop) (w : World)
  : Prop :=
  (∀ d, db w = Some d -> map_Forall P (Badger.table d))
  ∧ map_Forall (fun _ tbl => map_Forall P tbl) (fs w).

Definition store_inv (w : World) : Prop :=
  tables_inv (fun k it => GenPK (Badger.item_value it) = (Some k, None)) w.

(** A pending write that keeps [P] on the table: a deletion, or a record
    of which [P] holds. *)
Definition entry_ok (P : list byte -> Badger.Item -> Prop) (e : Badger.Entry)
  : Prop :=
  Badger.bitDelete e = true
  ∨ P (Badger.Key e) (Badger.mkItem (Badger.Value e) (Badger.ExpiresAt e)).

(** [P] holds of what the package writes: a payload under its digest,
    once the engine has accepted the key. *)
Definition holds_of_writes (P : list byte -> Badger.Item -> Prop) : Prop :=
  ∀ data key exp,
    GenPK data = (Some key, None) -> check_key key = None ->
    P key (Badger.mkItem data exp).

(** The public operations, and the passing of time. *)
Inductive Op :=
| OpInitPersistentMode (io : option Badger.Error)
| OpInitDisklessMode (io : option Badger.Error)
| OpClose
| OpIsOpen
| OpSet (data : list byte)
| OpSetWithTTL (data : list byte) (ttl : Z)
| OpGet (key : list byte)
| OpGetBatch
| OpRemove (key : list byte)
| OpRemoveBatch (keys : list (list byte))
| OpSleep (dur : Z).

Definition world_of {A} (o : Outcome A) : option World :=
  match o with
  | Ret _ w => Some w
  | Panic _ => None
  end.

Definition exec (o : Op) (w : World) : option World :=
  match o with
  | OpInitPersistentMode io => world_of (InitPersistentMode io w)
  | OpInitDisklessMode io => world_of (InitDisklessMode io w)
  | OpClose => world_of (Close w)
  | OpIsOpen => world_of (IsOpen w)
  | OpSet data => world_of (Set_ data w)
  | OpSetWithTTL data ttl => world_of (SetWithTTL data ttl w)
  | OpGet key => world_of (Get key w)
  | OpGetBatch => world_of (GetBatch w)
  | OpRemove key => world_of (Remove key w)
  | OpRemoveBatch keys => world_of (RemoveBatch keys w)
  | OpSleep dur => Some (sleep dur w)
  end.

(** The states a process reaches from its start, on a disk that holds
    what earlier runs of the package left there. *)
Inductive reachable : World -> Prop :=
| reach_start now f :
    map_Forall (fun _ tbl => stored_by_GenPK tbl ∧ keys_checked tbl) f ->
    reachable (start now f)
| reach_step w o w' :
    reachable w -> exec o w = Some w' -> reachable w'.

(** What the loop of RemoveBatch leaves in [errs] on a store that is not
    open: one entry per key of positive length. *)
Definition not_open_errs (keys : list (list byte)) (errs : gmap string error)
  : gmap string error :=
  foldl (fun errs k =>
           if (length k =? 0)%nat then errs
           else <[Base64.EncodeToString k := NotOpenError]> errs)
        errs keys.

(** What the loop of RemoveBatch leaves on an open store: the table
    without the keys the engine accepts, and in [errs] the engine's
    verdict on each other key of positive length. *)
Definition table_after (keys : list (list byte))
    (tbl : gmap (list byte) Badger.Item) : gmap (list byte) Badger.Item :=
  foldl (fun tbl k =>
           match check_key k with
           | Some _ => tbl
           | None => delete k tbl
           end) tbl keys.

Definition errs_after (keys : list (list byte)) (errs : gmap string error)
  : gmap string error :=
  foldl (fun errs k =>
           if (length k =? 0)%nat then errs
           else match check_key k with
                | Some e => <[Base64.EncodeToString k := badger_error e]> errs
                | None => errs
                end) errs keys.

(** *** Sample states

    A diskless handle opened at second 10 on an empty disk, after
    [Set "abc"]; and the same handle two seconds after
    [SetWithTTL "abc" 1s]. *)
Definition sample_payload : list byte := of_string "abc".
Definition sample_key : list byte := MD5.sum sample_payload.
Definition sample_opts : Badger.Options :=
  Badger.WithLogger false (Badger.WithInMemory true (Badger.DefaultOptions "")).

Definition sample_fresh : World :=
  mkWorld (Some (Badger.mkDB sample_opts false ∅)) true 10000000000 ∅ 1
    [CallOpen sample_opts].

Definition sample_db : Badger.DB :=
  Badger.mkDB sample_opts false {[ sample_key := Badger.mkItem sample_payload 0 ]}.
Definition sample_world : World :=
  mkWorld (Some sample_db) true 10000000000 ∅ 1
    [CallOpen sample_opts; CallView; CallNewTransaction true; CallCommit].

Definition sample_ttl_db : Badger.DB :=
  Badger.mkDB sample_opts false {[ sample_key := Badger.mkItem sample_payload 11 ]}.
Definition sample_ttl_world : World :=
  mkWorld (Some sample_ttl_db) true 12000000000 ∅ 1
    [CallOpen sample_opts; CallNewTransaction true; CallCommit].

(** *** Vocabulary of the further properties *)


(** The flag [isOpen] tells the truth about the binding. *)
Definition handle_ok (w : World) : Prop := isOpen w = still_open w.

(** What a record operation leaves alone: the flag, whether the handle
    is bound to an engine that is not closed, the disk, the clock and the
    reclamation loops. *)
Definition lifecycle_kept (w w' : World) : Prop :=
  isOpen w' = isOpen w ∧ still_open w' = still_open w ∧ fs w' = fs w
  ∧ clock w' = clock w ∧ gcLoops w' = gcLoops w.

(** The table the handle is bound to, if any. *)
Definition bound_table (w : World) : option (gmap (list byte) Badger.Item) :=
  Badger.table <$> db w.

(** Counting the events of the reclamation loop. *)
Definition is_tick (e : GCEvent) : bool :=
  match e with EvTick _ => true | _ => false end.
Definition is_pass (e : GCEvent) : bool :=
  match e with EvRunValueLogGC _ => true | _ => false end.
Definition is_log (e : GCEvent) : bool :=
  match e with EvLog _ => true | _ => false end.
Definition is_sync (e : GCEvent) : bool :=
  match e with EvSync => true | _ => false end.
Definition count_events (p : GCEvent -> bool) (evs : list GCEvent) : nat :=
  length (List.filter p evs).

(** The passes among [results] that did not report progress. *)
Definition is_stop (r : option Badger.Error) : bool :=
  match r with Some _ => true | None => false end.
Definition stops (results : list (option Badger.Error)) : nat :=
  length (List.filter is_stop results).

(** A handle opened in persistent mode, holding payload "abc". *)
Definition sample_disk_opts : Badger.Options :=
  Badger.WithLogger false
    (Badger.WithSyncWrites false (Badger.DefaultOptions STORAGE_PATH)).
Definition sample_disk_db : Badger.DB :=
  Badger.mkDB sample_disk_opts false
    {[ sample_key := Badger.mkItem sample_payload 0 ]}.
Definition sample_disk_world : World :=
  mkWorld (Some sample_disk_db) true 10000000000 ∅ 1
    [CallOpen sample_disk_opts; CallView; CallNewTransaction true; CallCommit].

(** The first sample state after [Close], and after [InitDisklessMode]
    on top of that. *)
Definition sample_closed : World :=
  record CallClose
    (set_db (Some (Badger.mkDB sample_opts true (Badger.table sample_db)))
       (set_isOpen false sample_world)).
Definition sample_reopened : World :=
  set_isOpen true
    (set_db (Some (Badger.mkDB sample_opts false ∅))
       (spawn_gc (record (CallOpen sample_opts) sample_closed))).

(* ===================================================================== *)
(** * Properties *)
(* ===================================================================== *)

(** ** Bytes *)

Module BytesFacts.

Lemma byte_to_Z_range (b : byte) : 0 <= byte_to_Z b < 256.
Proof.
  unfold byte_to_Z. pose proof (Byte.to_N_bounded b) as Hb.
  split; [apply N2Z.is_nonneg | lia].
Qed.

Lemma Z_to_byte_to_Z (b : byte) : Z_to_byte (byte_to_Z b) = b.
Proof.
  unfold Z_to_byte. rewrite Z.mod_small by apply byte_to_Z_range.
  unfold byte_to_Z. rewrite N2Z.id, Byte.of_to_N. reflexivity.
Qed.

Lemma byte_to_Z_inj (a b : byte) : byte_to_Z a = byte_to_Z b -> a = b.
Proof.
  intros H. rewrite <- (Z_to_byte_to_Z a), <- (Z_to_byte_to_Z b).
  now rewrite H.
Qed.

End BytesFacts.
Import BytesFacts.

(** ** MD5: digest size and test vectors *)

Module MD5Facts.
Import MD5.

Lemma sum_length (data : list byte) : length (sum data) = Size.
Proof.
  unfold sum. destruct (blocks _ _ _) as [a b c d]. reflexivity.
Qed.

(** RFC 1321, appendix A.5. *)
Definition hex (bs : list byte) : list Z := map byte_to_Z bs.

Example sum_empty :
  hex (sum []) =
  [ 0xd4; 0x1d; 0x8c; 0xd9; 0x8f; 0x00; 0xb2; 0x04;
    0xe9; 0x80; 0x09; 0x98; 0xec; 0xf8; 0x42; 0x7e ].
Proof. vm_compute. reflexivity. Qed.

Example sum_abc :
  hex (sum (of_string "abc")) =
  [ 0x90; 0x01; 0x50; 0x98; 0x3c; 0xd2; 0x4f; 0xb0;
    0xd6; 0x96; 0x3f; 0x7d; 0x28; 0xe1; 0x7f; 0x72 ].
Proof. vm_compute. reflexivity. Qed.

(** Seventy bytes: two blocks. *)
Example sum_two_blocks :
  hex (sum (repeat "a"%byte 70)) =
  [ 0x0f; 0x5c; 0x6c; 0x4e; 0x74; 0x0b; 0xfc; 0xc0;
    0x8c; 0x3c; 0x26; 0xcc; 0xb2; 0x67; 0x3d; 0x46 ].
Proof. vm_compute. reflexivity. Qed.

End MD5Facts.

(** ** Base64 *)

Module Base64Facts.
Import Base64.

Example encode_foobar :
  EncodeToString (of_string "foobar") = "Zm9vYmFy"%string
  /\ EncodeToString (of_string "fooba") = "Zm9vYmE="%string
  /\ EncodeToString (of_string "foob") = "Zm9vYg=="%string
  /\ EncodeToString [xff; xfe; xfd] = "//79"%string.
Proof. repeat split; reflexivity. Qed.

(** *** The alphabet is duplicate free and has no padding character *)

Lemma alphabet_length : length alphabet = 64%nat.
Proof. reflexivity. Qed.

Lemma alphabet_NoDup : NoDup alphabet.
Proof. apply (bool_decide_unpack (NoDup alphabet)). vm_compute. exact I. Qed.

Lemma alphabet_no_padding : StdPadding ∉ alphabet.
Proof.
  apply (bool_decide_unpack (StdPadding ∉ alphabet)). vm_compute. exact I.
Qed.

Lemma enc_inj (i j : Z) :
  0 <= i < 64 -> 0 <= j < 64 -> enc i = enc j -> i = j.
Proof.
  intros Hi Hj He. unfold enc in He.
  assert (Z.to_nat i = Z.to_nat j) as Hn; [|lia].
  pose proof alphabet_NoDup as Hnd.
  rewrite NoDup_ListNoDup in Hnd.
  eapply (proj1 (List.NoDup_nth alphabet StdPadding) Hnd);
    rewrite ?alphabet_length; try lia. exact He.
Qed.

Lemma enc_not_padding (i : Z) : 0 <= i < 64 -> enc i <> StdPadding.
Proof.
  intros Hi He. apply alphabet_no_padding. rewrite <- He.
  apply list_elem_of_In. apply nth_In. rewrite alphabet_length. lia.
Qed.

(** *** Groups and sextets as arithmetic *)

Lemma lor_shiftl_add (a b k : Z) :
  0 <= k -> 0 <= b < 2 ^ k -> Z.lor (Z.shiftl a k) b = a * 2 ^ k + b.
Proof.
  intros Hk Hb.
  assert (Z.land (Z.shiftl a k) b = 0) as Hdisj.
  { apply Z.bits_inj'. intros n Hn.
    rewrite Z.land_spec, Z.bits_0.
    destruct (Z_lt_le_dec n k) as [Hlt|Hge].
    - rewrite Z.shiftl_spec_low by lia. reflexivity.
    - replace b with (b mod 2 ^ k) by (apply Z.mod_small; lia).
      rewrite Z.mod_pow2_bits_high by lia. apply andb_false_r. }
  rewrite <- Z.lxor_lor by exact Hdisj.
  rewrite <- Z.add_nocarry_lxor by exact Hdisj.
  now rewrite Z.shiftl_mul_pow2.
Qed.

Lemma group_spec (b0 b1 b2 : byte) :
  group b0 b1 b2
  = byte_to_Z b0 * 65536 + byte_to_Z b1 * 256 + byte_to_Z b2.
Proof.
  unfold group.
  pose proof (byte_to_Z_range b0) as H0.
  pose proof (byte_to_Z_range b1) as H1.
  pose proof (byte_to_Z_range b2) as H2.
  rewrite (Z.shiftl_mul_pow2 (byte_to_Z b1) 8) by lia.
  rewrite (lor_shiftl_add (byte_to_Z b0) (byte_to_Z b1 * 2 ^ 8) 16) by lia.
  replace (byte_to_Z b0 * 2 ^ 16 + byte_to_Z b1 * 2 ^ 8)
    with (Z.shiftl (byte_to_Z b0 * 2 ^ 8 + byte_to_Z b1) 8)
    by (rewrite Z.shiftl_mul_pow2 by lia; lia).
  rewrite lor_shiftl_add by lia. lia.
Qed.

Lemma sextet_spec (val k : Z) :
  0 <= k -> sextet val k = (val / 2 ^ k) mod 64.
Proof.
  intros Hk. unfold sextet.
  change 0x3F with (Z.ones 6).
  rewrite Z.land_ones by lia. now rewrite Z.shiftr_div_pow2.
Qed.

Lemma sextet_range (val k : Z) : 0 <= k -> 0 <= sextet val k < 64.
Proof. intros Hk. rewrite sextet_spec by lia. apply Z.mod_pos_bound. lia. Qed.

(** *** [EncodeToString] is injective *)

Lemma group_range (b0 b1 b2 : byte) : 0 <= group b0 b1 b2 < 2 ^ 24.
Proof.
  rewrite group_spec.
  pose proof (byte_to_Z_range b0). pose proof (byte_to_Z_range b1).
  pose proof (byte_to_Z_range b2). lia.
Qed.

Lemma sextets_inj (v v' : Z) :
  0 <= v < 2 ^ 24 -> 0 <= v' < 2 ^ 24 ->
  sextet v 18 = sextet v' 18 -> sextet v 12 = sextet v' 12 ->
  sextet v 6 = sextet v' 6 -> sextet v 0 = sextet v' 0 ->
  v = v'.
Proof.
  intros Hv Hv'. rewrite !sextet_spec by lia.
  change (2 ^ 18) with 262144. change (2 ^ 12) with 4096.
  change (2 ^ 6) with 64. change (2 ^ 0) with 1.
  change (2 ^ 24) with 16777216 in *.
  intros E18 E12 E6 E0. Z.div_mod_to_equations. lia.
Qed.

Lemma group_inj (b0 b1 b2 c0 c1 c2 : byte) :
  group b0 b1 b2 = group c0 c1 c2 -> b0 = c0 /\ b1 = c1 /\ b2 = c2.
Proof.
  rewrite !group_spec. intros E.
  pose proof (byte_to_Z_range b0). pose proof (byte_to_Z_range b1).
  pose proof (byte_to_Z_range b2). pose proof (byte_to_Z_range c0).
  pose proof (byte_to_Z_range c1). pose proof (byte_to_Z_range c2).
  repeat split; apply byte_to_Z_inj; lia.
Qed.

(** The low sextets of a short group are determined by its bytes. *)
Lemma sextet_low_1 (b0 : byte) :
  sextet (group b0 x00 x00) 6 = 0 /\ sextet (group b0 x00 x00) 0 = 0.
Proof.
  rewrite !sextet_spec, group_spec by lia.
  pose proof (byte_to_Z_range b0).
  change (byte_to_Z x00) with 0.
  change (2 ^ 6) with 64. change (2 ^ 0) with 1.
  split; Z.div_mod_to_equations; lia.
Qed.

Lemma sextet_low_2 (b0 b1 : byte) : sextet (group b0 b1 x00) 0 = 0.
Proof.
  rewrite !sextet_spec, group_spec by lia.
  pose proof (byte_to_Z_range b0). pose proof (byte_to_Z_range b1).
  change (byte_to_Z x00) with 0. change (2 ^ 0) with 1.
  Z.div_mod_to_equations; lia.
Qed.

Lemma list_ind3 {A} (P : list A -> Prop) :
  P [] -> (forall x, P [x]) -> (forall x y, P [x; y]) ->
  (forall x y z l, P l -> P (x :: y :: z :: l)) ->
  forall l, P l.
Proof.
  intros H0 H1 H2 H3.
  assert (forall n l, (length l <= n)%nat -> P l) as Hall.
  { induction n as [|n IH]; intros l Hl.
    - destruct l; [exact H0 | simpl in Hl; lia].
    - destruct l as [|x [|y [|z l]]]; auto.
      apply H3, IH. simpl in Hl. lia. }
  intros l. apply (Hall (length l)). lia.
Qed.

Ltac enc_eq H :=
  apply enc_inj in H; [| apply sextet_range; lia | apply sextet_range; lia].

Ltac pad_clash H :=
  exfalso;
  match type of H with StdPadding = _ => symmetry in H | _ => idtac end;
  eapply enc_not_padding; [| exact H]; apply sextet_range; lia.

Lemma EncodeToString_inj (a b : list byte) :
  EncodeToString a = EncodeToString b -> a = b.
Proof.
  revert b. induction a as [|x|x y|x y z a IH] using list_ind3;
    intros [|c0 [|c1 [|c2 b]]] H; cbn [EncodeToString] in H;
    try discriminate H; try reflexivity.
  - injection H as E18 E12. enc_eq E18. enc_eq E12.
    destruct (sextet_low_1 x) as [X6 X0], (sextet_low_1 c0) as [C6 C0].
    destruct (group_inj x x00 x00 c0 x00 x00) as (-> & _); [|reflexivity].
    apply sextets_inj; try apply group_range; congruence.
  - injection H as _ _ E6. pad_clash E6.
  - injection H as _ _ E6 _. pad_clash E6.
  - injection H as _ _ E6. pad_clash E6.
  - injection H as E18 E12 E6. enc_eq E18. enc_eq E12. enc_eq E6.
    pose proof (sextet_low_2 x y). pose proof (sextet_low_2 c0 c1).
    destruct (group_inj x y x00 c0 c1 x00) as (-> & -> & _); [|reflexivity].
    apply sextets_inj; try apply group_range; congruence.
  - injection H as _ _ _ E0 _. pad_clash E0.
  - injection H as _ _ E6 _. pad_clash E6.
  - injection H as _ _ _ E0 _. pad_clash E0.
  - injection H as E18 E12 E6 E0 Hrest.
    enc_eq E18. enc_eq E12. enc_eq E6. enc_eq E0.
    destruct (group_inj x y z c0 c1 c2) as (-> & -> & ->).
    { apply sextets_inj; try apply group_range; assumption. }
    f_equal. f_equal. f_equal. apply IH, Hrest.
Qed.

#[global] Instance EncodeToString_Inj : Inj (=) (=) EncodeToString.
Proof. intros a b. apply EncodeToString_inj. Qed.

End Base64Facts.
Import Base64Facts.

(* ===================================================================== *)
(** ** Key derivation *)
(* ===================================================================== *)

Lemma GenPK_nonempty (data : list byte) :
  data ≠ [] -> GenPK data = (Some (MD5.sum data), None).
Proof.
  intros Hne. unfold GenPK. destruct data as [|b data]; [congruence|].
  reflexivity.
Qed.

Lemma GenPK_empty : GenPK [] = (None, Some EmptyInputError).
Proof. reflexivity. Qed.

Lemma GenPK_Some (data key : list byte) :
  GenPK data = (Some key, None) ->
  data ≠ [] ∧ key = MD5.sum data ∧ length key = 16%nat.
Proof.
  destruct data as [|b data]; [discriminate|].
  rewrite GenPK_nonempty by discriminate. intros [= <-].
  split; [discriminate|]. split; [reflexivity|]. apply MD5Facts.sum_length.
Qed.

(** C7. Key derivation: [GenPK] of a payload of zero length fails with
    [EmptyInputError]; of a non-empty payload it succeeds with a key of
    exactly 16 bytes, the digest of the payload, and the result is a
    function of the bytes alone: equal payloads give equal results,
    whatever the state of the store. *)
Theorem GenPK_contract (data : list byte) :
  (length data = 0%nat -> GenPK data = (None, Some EmptyInputError))
  ∧ (length data ≠ 0%nat ->
     ∃ key, GenPK data = (Some key, None)
            ∧ length key = 16%nat
            ∧ key = MD5.sum data
            ∧ ∀ data', data' = data -> GenPK data' = (Some key, None)).
Proof.
  split.
  - destruct data; [reflexivity | discriminate].
  - intros Hlen. assert (data ≠ []) as Hne by (intros ->; apply Hlen; reflexivity).
    exists (MD5.sum data). split; [apply GenPK_nonempty, Hne|].
    split; [apply MD5Facts.sum_length|]. split; [reflexivity|].
    intros data' ->. apply GenPK_nonempty, Hne.
Qed.

Lemma GenPK_contract_witness :
  GenPK [] = (None, Some EmptyInputError)
  ∧ ∃ key, GenPK (of_string "abc") = (Some key, None)
           ∧ length key = 16%nat
           ∧ key = MD5.sum (of_string "abc")
           ∧ ∀ data', data' = of_string "abc" -> GenPK data' = (Some key, None).
Proof.
  split.
  - apply (proj1 (GenPK_contract [])). reflexivity.
  - apply (proj2 (GenPK_contract (of_string "abc"))). simpl. lia.
Defined.

(* ===================================================================== *)
(** ** Operations on a handle that is not open *)
(* ===================================================================== *)

(** The five operations that test [isOpen] return at once: the result is
    the not-open error and the world, engine calls included, is as it
    was. *)
Lemma not_open_guarded (w : World) (data key : list byte) (ttl : Z) :
  isOpen w = false ->
  Set_ data w = Ret (None, Some NotOpenError) w
  ∧ SetWithTTL data ttl w = Ret (None, Some NotOpenError) w
  ∧ Get key w = Ret (None, Some NotOpenError) w
  ∧ GetBatch w = Ret (None, Some NotOpenError) w
  ∧ Remove key w = Ret (Some NotOpenError) w.
Proof.
  intros Hclosed. unfold Set_, SetWithTTL, Get, GetBatch, Remove.
  rewrite Hclosed. repeat split; reflexivity.
Qed.

Lemma remove_loop_not_open (keys : list (list byte)) :
  ∀ (errs : gmap string error) (w : World),
    isOpen w = false ->
    remove_loop keys errs w = Ret (not_open_errs keys errs) w.
Proof.
  induction keys as [|k keys IH]; intros errs w Hclosed; [reflexivity|].
  cbn [remove_loop not_open_errs foldl].
  destruct (length k =? 0)%nat; [apply IH, Hclosed|].
  unfold mbind, M_bind.
  destruct (not_open_guarded w [] k 0 Hclosed) as (_ & _ & _ & _ & ->).
  apply IH, Hclosed.
Qed.

(** C1. RemoveBatch has no [isOpen] test.  On a handle that was never
    opened its first statement, [db.NewTransaction(true)], dereferences
    the nil [db] and panics; on a closed handle it opens and discards a
    transaction on the closed engine, collects the error of each [Remove]
    under its key, and reports success when there is no key of positive
    length. *)
Theorem RemoveBatch_not_open (keys : list (list byte)) (d : Badger.DB)
    (now : Z) (f : Badger.FS) (n : nat) (cs : list Call) :
  RemoveBatch keys (mkWorld None false now f n cs) = Panic nil_dereference
  ∧ RemoveBatch keys (mkWorld (Some d) false now f n cs)
    = Ret (bool_decide (size (not_open_errs keys ∅) = 0%nat),
           not_open_errs keys ∅)
          (mkWorld (Some d) false now f n
             (cs ++ [CallNewTransaction true] ++ [CallDiscard]))
  ∧ RemoveBatch [] (mkWorld (Some d) false now f n cs)
    = Ret (true, ∅)
          (mkWorld (Some d) false now f n
             (cs ++ [CallNewTransaction true] ++ [CallDiscard])).
Proof.
  assert (∀ ks, RemoveBatch ks (mkWorld (Some d) false now f n cs)
    = Ret (bool_decide (size (not_open_errs ks ∅) = 0%nat),
           not_open_errs ks ∅)
          (mkWorld (Some d) false now f n
             (cs ++ [CallNewTransaction true] ++ [CallDiscard]))) as Hclosed.
  { intros ks. unfold RemoveBatch, mbind, M_bind, db_NewTransaction.
    cbn [db]. rewrite remove_loop_not_open by reflexivity.
    unfold txn_Discard, record, mret, M_ret. cbn.
    now rewrite <- app_assoc. }
  split; [reflexivity|]. split; [apply Hclosed|].
  rewrite Hclosed. reflexivity.
Qed.

(* ===================================================================== *)
(** ** Get *)
(* ===================================================================== *)

Lemma live_table_lookup (d : Badger.DB) (now : Z) (key : list byte) :
  live_table d now !! key
  = match Badger.table d !! key with
    | Some it => if Badger.live now it then Some it else None
    | None => None
    end.
Proof.
  unfold live_table. destruct (Badger.table d !! key) as [it|] eqn:Hk.
  - destruct (Badger.live now it) eqn:Hl.
    + apply map_lookup_filter_Some_2; [exact Hk | exact Hl].
    + apply map_lookup_filter_None_2. right. intros it' Hit'.
      cbn. congruence.
  - apply map_lookup_filter_None_2. left. exact Hk.
Qed.

Lemma Get_open (w : World) (d : Badger.DB) (key : list byte) :
  OpenOn w d -> length key = 16%nat ->
  Get key w
  = Ret (match live_table d (clock w) !! key with
         | Some it => (Some (Badger.item_value it), None)
         | None => (None, Some NotFoundError)
         end)
        (record CallView w).
Proof.
  intros (Hopen & Hdb & Hnc) Hlen. unfold Get. rewrite Hopen, Hlen. cbn.
  unfold mbind, M_bind, db_View. rewrite Hdb.
  unfold Badger.IsClosed. rewrite Hnc.
  rewrite live_table_lookup. unfold Badger.Txn_Get, Badger.live.
  rewrite Hlen. cbn.
  destruct (Badger.table d !! key) as [it|]; [|reflexivity].
  destruct (Badger.item_expiresAt it =? 0); [reflexivity|].
  destruct (Badger.item_expiresAt it <=? _); reflexivity.
Qed.


(** C4. Get on an open store: a key whose length is not 16 fails with
    [InvalidKeyError]; a 16-byte key with no live record, in particular
    one whose only record is past its expiry, fails with [NotFoundError];
    a key with a live record returns the stored payload. *)
Theorem Get_contract (w : World) (d : Badger.DB) (key : list byte)
    (Hopen : OpenOn w d) :
  (length key ≠ 16%nat -> Get key w = Ret (None, Some InvalidKeyError) w)
  ∧ (length key = 16%nat -> live_table d (clock w) !! key = None ->
     Get key w = Ret (None, Some NotFoundError) (record CallView w))
  ∧ (length key = 16%nat ->
     ∀ it, Badger.table d !! key = Some it ->
           Badger.item_expiresAt it ≠ 0 ->
           Badger.item_expiresAt it <= Badger.uint64 (Badger.Unix (clock w)) ->
           Get key w = Ret (None, Some NotFoundError) (record CallView w))
  ∧ (length key = 16%nat ->
     ∀ it, live_table d (clock w) !! key = Some it ->
           Get key w
           = Ret (Some (Badger.item_value it), None) (record CallView w)).
Proof.
  repeat split.
  - intros Hlen. destruct Hopen as (Ho & _ & _). unfold Get. rewrite Ho.
    apply Nat.eqb_neq in Hlen. now rewrite Hlen.
  - intros Hlen Hnone. rewrite (Get_open w d) by assumption.
    now rewrite Hnone.
  - intros Hlen it Hit Hnz Hexp. rewrite (Get_open w d) by assumption.
    rewrite live_table_lookup, Hit.
    unfold Badger.live, Badger.isDeletedOrExpired.
    apply Z.eqb_neq in Hnz. apply Z.leb_le in Hexp.
    rewrite Hnz, Hexp. reflexivity.
  - intros Hlen it Hit. rewrite (Get_open w d) by assumption.
    now rewrite Hit.
Qed.

Lemma sample_world_steps :
  foldl (fun ow o => ow ≫= exec o) (Some (start 10000000000 ∅))
        [OpInitDisklessMode None; OpSet sample_payload]
  = Some sample_world
  ∧ foldl (fun ow o => ow ≫= exec o) (Some (start 10000000000 ∅))
          [OpInitDisklessMode None; OpSetWithTTL sample_payload 1000000000;
           OpSleep 2000000000]
    = Some sample_ttl_world.
Proof. split; vm_compute; reflexivity. Qed.

Lemma sample_world_open : OpenOn sample_world sample_db.
Proof. repeat split. Qed.

Lemma sample_ttl_world_open : OpenOn sample_ttl_world sample_ttl_db.
Proof. repeat split. Qed.

Lemma Get_contract_witness :
  Get [x00] sample_world = Ret (None, Some InvalidKeyError) sample_world
  ∧ Get (repeat x00 16) sample_world
    = Ret (None, Some NotFoundError) (record CallView sample_world)
  ∧ Get sample_key sample_ttl_world
    = Ret (None, Some NotFoundError) (record CallView sample_ttl_world)
  ∧ Get sample_key sample_world
    = Ret (Some sample_payload, None) (record CallView sample_world).
Proof.
  split; [|split; [|split]].
  - apply (proj1 (Get_contract sample_world sample_db [x00] sample_world_open)).
    simpl. lia.
  - apply (proj1 (proj2 (Get_contract sample_world sample_db (repeat x00 16)
                           sample_world_open))).
    + reflexivity.
    + vm_compute. reflexivity.
  - apply (proj1 (proj2 (proj2 (Get_contract sample_ttl_world sample_ttl_db
                                  sample_key sample_ttl_world_open)))
             eq_refl (Badger.mkItem sample_payload 11)).
    + vm_compute. reflexivity.
    + simpl. lia.
    + vm_compute. discriminate.
  - apply (proj2 (proj2 (proj2 (Get_contract sample_world sample_db
                                  sample_key sample_world_open)))
             eq_refl (Badger.mkItem sample_payload 0)).
    vm_compute. reflexivity.
Defined.

(* ===================================================================== *)
(** ** Initialising an open handle *)
(* ===================================================================== *)

(** C6. On an open handle, whatever mode it was opened in, both
    initialize calls fail with [AlreadyOpenError] and return the world as
    it was: same engine binding, same flag, same records. *)
Theorem init_while_open (w : World) (d : Badger.DB)
    (io : option Badger.Error) (Hopen : OpenOn w d) :
  InitPersistentMode io w = Ret (Some AlreadyOpenError) w
  ∧ InitDisklessMode io w = Ret (Some AlreadyOpenError) w.
Proof.
  destruct Hopen as (_ & Hdb & Hnc).
  unfold InitPersistentMode, InitDisklessMode, still_open, Badger.IsClosed.
  rewrite Hdb, Hnc. split; reflexivity.
Qed.

Lemma init_while_open_witness :
  InitPersistentMode None sample_world = Ret (Some AlreadyOpenError) sample_world
  ∧ InitDisklessMode None sample_world = Ret (Some AlreadyOpenError) sample_world.
Proof. exact (init_while_open sample_world sample_db None sample_world_open). Defined.

(* ===================================================================== *)
(** ** Writes *)
(* ===================================================================== *)

Lemma modify_fresh (e : Badger.Entry) :
  Badger.modify (Badger.NewTransaction true) e
  = match check_key (Badger.Key e) with
    | Some err => (Some err, Badger.NewTransaction true)
    | None => (None, Badger.mkTxn true false [e])
    end.
Proof.
  unfold Badger.modify, check_key. cbn.
  destruct (length (Badger.Key e) =? 0)%nat; [reflexivity|].
  destruct (Badger.HasPrefix _ _); [reflexivity|].
  destruct (Badger.maxKeySize <? _); reflexivity.
Qed.

Lemma SetWithTTL_open (w : World) (d : Badger.DB) (data : list byte) (ttl : Z) :
  OpenOn w d -> data ≠ [] ->
  SetWithTTL data ttl w
  = match check_key (MD5.sum data) with
    | Some err =>
        Ret (None, Some (badger_error err))
            (record CallDiscard (record (CallNewTransaction true) w))
    | None =>
        Ret (Some (MD5.sum data), None)
            (record CallCommit
               (set_db
                  (Some (with_table
                           (<[MD5.sum data :=
                                Badger.mkItem data
                                  (Badger.uint64 (Badger.Unix (clock w + ttl)))]>
                              (Badger.table d)) d))
                  (record (CallNewTransaction true) w)))
    end.
Proof.
  intros (Hopen & Hdb & Hnc) Hne. unfold SetWithTTL.
  rewrite Hopen, (GenPK_nonempty data Hne). cbn [negb].
  change (bytes (Some (MD5.sum data))) with (MD5.sum data).
  unfold mbind, M_bind, db_NewTransaction. rewrite Hdb.
  unfold Badger.Txn_SetEntry. rewrite modify_fresh. cbn [Badger.Key Badger.WithTTL Badger.NewEntry].
  destruct (check_key (MD5.sum data)); [reflexivity|].
  unfold txn_Commit. cbn [db record]. rewrite Hdb.
  unfold Badger.Commit, with_table. cbn. rewrite Hnc. reflexivity.
Qed.

Lemma Set_open (w : World) (d : Badger.DB) (data : list byte) :
  OpenOn w d -> data ≠ [] ->
  Set_ data w
  = match live_table d (clock w) !! MD5.sum data with
    | Some _ => Ret (None, Some DuplicateKeyError) (record CallView w)
    | None =>
        match check_key (MD5.sum data) with
        | Some err =>
            Ret (None, Some (badger_error err))
                (record CallDiscard
                   (record (CallNewTransaction true) (record CallView w)))
        | None =>
            Ret (Some (MD5.sum data), None)
                (record CallCommit
                   (set_db
                      (Some (with_table
                               (<[MD5.sum data := Badger.mkItem data 0]>
                                  (Badger.table d)) d))
                      (record (CallNewTransaction true) (record CallView w))))
        end
    end.
Proof.
  intros Hopen Hne. pose proof Hopen as (Ho & Hdb & Hnc). unfold Set_.
  rewrite Ho, (GenPK_nonempty data Hne). cbn [negb].
  change (bytes (Some (MD5.sum data))) with (MD5.sum data).
  unfold mbind at 1, M_bind at 1.
  rewrite (Get_open w d) by (try apply MD5Facts.sum_length; assumption).
  destruct (live_table d (clock w) !! MD5.sum data); [reflexivity|].
  unfold mbind, M_bind, db_NewTransaction. cbn [db record]. rewrite Hdb.
  unfold Badger.Txn_Set. rewrite modify_fresh. cbn [Badger.Key Badger.NewEntry].
  destruct (check_key (MD5.sum data)); [reflexivity|].
  unfold txn_Commit. cbn [db record]. rewrite Hdb.
  unfold Badger.Commit, with_table. cbn. rewrite Hnc. reflexivity.
Qed.

(** C2. Duplicates: when the key derived from a payload has a live record
    in the open store, [Set] fails with [DuplicateKeyError] and leaves the
    engine binding and its table as they were, while [SetWithTTL] on the
    same payload writes: it returns the key and the table holds the
    payload under it with expiry at [now + ttl]. *)
Theorem duplicate_handling (w : World) (d : Badger.DB) (data key : list byte)
    (it : Badger.Item) (ttl : Z)
    (Hopen : OpenOn w d)
    (Hchecked : keys_checked (Badger.table d))
    (Hkey : GenPK data = (Some key, None))
    (Hrecord : live_table d (clock w) !! key = Some it) :
  (∃ w', Set_ data w = Ret (None, Some DuplicateKeyError) w'
         ∧ db w' = db w ∧ isOpen w' = isOpen w ∧ fs w' = fs w)
  ∧ (∃ w', SetWithTTL data ttl w = Ret (Some key, None) w'
           ∧ db w'
             = Some (with_table
                       (<[key := Badger.mkItem data
                                   (Badger.uint64 (Badger.Unix (clock w + ttl)))]>
                          (Badger.table d)) d)).
Proof.
  apply GenPK_Some in Hkey as (Hne & -> & _).
  split.
  - exists (record CallView w).
    rewrite (Set_open w d) by assumption. rewrite Hrecord.
    repeat split.
  - rewrite (SetWithTTL_open w d) by assumption.
    assert (check_key (MD5.sum data) = None) as ->.
    { rewrite live_table_lookup in Hrecord.
      destruct (Badger.table d !! MD5.sum data) as [it'|] eqn:Hit;
        [|discriminate].
      exact (Hchecked _ _ Hit). }
    eexists. split; reflexivity.
Qed.

Lemma duplicate_handling_witness :
  (∃ w', Set_ sample_payload sample_world
         = Ret (None, Some DuplicateKeyError) w'
         ∧ db w' = db sample_world ∧ isOpen w' = isOpen sample_world
         ∧ fs w' = fs sample_world)
  ∧ (∃ w', SetWithTTL sample_payload 1000000000 sample_world
           = Ret (Some sample_key, None) w'
           ∧ db w'
             = Some (with_table
                       (<[sample_key :=
                            Badger.mkItem sample_payload
                              (Badger.uint64
                                 (Badger.Unix (clock sample_world + 1000000000)))]>
                          (Badger.table sample_db)) sample_db)).
Proof.
  apply (duplicate_handling sample_world sample_db sample_payload sample_key
           (Badger.mkItem sample_payload 0) 1000000000 sample_world_open).
  - apply map_Forall_singleton. vm_compute. reflexivity.
  - vm_compute. reflexivity.
  - vm_compute. reflexivity.
Defined.

(** A record past its expiry does not count: [Get] no longer finds it,
    and [Set] of the same payload writes again. *)
Example Set_over_expired :
  ∃ w', Set_ sample_payload sample_ttl_world
        = Ret (Some sample_key, None) w'
        ∧ db w' = Some sample_db.
Proof. eexists. split; vm_compute; reflexivity. Qed.

(* ===================================================================== *)
(** ** The reclamation loop *)
(* ===================================================================== *)

Lemma again_progress (n : nat) (results : list (option Badger.Error)) :
  again (replicate n None ++ results)
  = '(evs, rest) ← again results;
    Some (replicate n (EvRunValueLogGC DISCARD_RATIO) ++ evs, rest).
Proof.
  induction n as [|n IH]; cbn [replicate app again].
  - destruct (again results) as [[evs rest]|]; reflexivity.
  - rewrite IH. destruct (again results) as [[evs rest]|]; reflexivity.
Qed.

(** C3, as the code has it.  Within a tick the loop calls the engine's
    reclamation with [DISCARD_RATIO]; while a pass reports progress it
    calls again at once; at the first pass that reports anything else,
    nothing left to reclaim and failures alike, it prints the failure
    message once, syncs once and waits for the next tick.  As long as
    passes report progress the body does not end. *)
Theorem reclamation_policy (n : nat) (err : Badger.Error)
    (rest : list (option Badger.Error)) :
  again (replicate n None ++ Some err :: rest)
  = Some (replicate (S n) (EvRunValueLogGC DISCARD_RATIO)
            ++ [EvLog gc_failed; EvSync], rest)
  ∧ again (replicate n None) = None
  ∧ runGC 1 (replicate n None ++ Some err :: rest)
    = Some (EvTick GC_INTERVAL
              :: replicate (S n) (EvRunValueLogGC DISCARD_RATIO)
              ++ [EvLog gc_failed; EvSync]).
Proof.
  assert (again (replicate n None ++ Some err :: rest)
          = Some (replicate (S n) (EvRunValueLogGC DISCARD_RATIO)
                    ++ [EvLog gc_failed; EvSync], rest)) as Hpass.
  { rewrite again_progress. cbn [again mbind option_bind].
    f_equal. f_equal.
    change (replicate n (EvRunValueLogGC DISCARD_RATIO)
              ++ [EvRunValueLogGC DISCARD_RATIO] ++ [EvLog gc_failed; EvSync]
            = replicate (S n) (EvRunValueLogGC DISCARD_RATIO)
              ++ [EvLog gc_failed; EvSync]).
    rewrite app_assoc. f_equal.
    change ([EvRunValueLogGC DISCARD_RATIO])
      with (replicate 1 (EvRunValueLogGC DISCARD_RATIO)).
    rewrite <- replicate_add. f_equal. lia. }
  split; [exact Hpass|]. split.
  - rewrite <- (app_nil_r (replicate n None)), again_progress. reflexivity.
  - cbn [runGC]. rewrite Hpass. cbn. now rewrite app_nil_r.
Qed.

(** C3, as the specification words it, fails: a pass that reports
    nothing left to reclaim is logged as a failure, and the sync also
    follows a pass that failed. *)
Lemma quiescent_pass_is_logged :
  (∃ evs, again [Some Badger.ErrNoRewrite] = Some (evs, [])
          ∧ EvLog gc_failed ∈ evs)
  ∧ (∃ evs, again [Some Badger.ErrRejected] = Some (evs, [])
            ∧ EvSync ∈ evs).
Proof.
  split; eexists; (split; [reflexivity|]).
  - apply list_elem_of_In. simpl. tauto.
  - apply list_elem_of_In. simpl. tauto.
Qed.

(* ===================================================================== *)
(** ** GetBatch *)
(* ===================================================================== *)

Section insert_loop.
Context {A B : Type} (f : list byte -> string) (g : A -> B).

Lemma foldl_insert_union (l : list (list byte * A)) :
  ∀ me : gmap string B,
    NoDup (f <$> l.*1) ->
    foldl (fun me kv => <[f kv.1 := g kv.2]> me) me l
    = list_to_map (prod_map f g <$> l) ∪ me.
Proof.
  induction l as [|[k x] l IH]; intros me Hnd; cbn [foldl].
  - cbn. now rewrite (left_id ∅ (∪)).
  - cbn in Hnd. apply NoDup_cons in Hnd as [Hk Hnd].
    rewrite IH by exact Hnd. cbn.
    rewrite <- insert_union_l. symmetry. apply insert_union_r.
    apply not_elem_of_list_to_map_1.
    rewrite <- list_fmap_compose.
    rewrite <- list_fmap_compose in Hk. exact Hk.
Qed.
End insert_loop.

Lemma batch_loop_foldl (items : list (list byte * Badger.Item)) :
  ∀ me, batch_loop items me
        = (None, foldl (fun me kv =>
                          <[Base64.EncodeToString kv.1 := Badger.item_value kv.2]> me)
                       me items).
Proof.
  induction items as [|[k it] items IH]; intros me; [reflexivity|].
  cbn [batch_loop foldl]. unfold Badger.Item_Value. apply IH.
Qed.

Lemma iter_items_NoDup (d : Badger.DB) (now : Z) :
  NoDup (Base64.EncodeToString <$> (Badger.iter_items d now).*1).
Proof.
  apply (NoDup_fmap_2 _). unfold Badger.iter_items.
  assert ((filter (fun kv : list byte * Badger.Item => Badger.live now kv.2 = true)
             (map_to_list (Badger.table d))).*1
          `sublist_of` (map_to_list (Badger.table d)).*1) as Hsub
    by apply fmap_sublist, sublist_filter.
  eapply sublist_NoDup in Hsub; [exact Hsub|].
  apply NoDup_fst_map_to_list.
Qed.


Lemma GetBatch_open (w : World) (d : Badger.DB) :
  OpenOn w d ->
  GetBatch w
  = Ret (Some (kmap Base64.EncodeToString
                 (Badger.item_value <$> live_table d (clock w))), None)
        (record CallView w).
Proof.
  intros (Hopen & Hdb & Hnc). unfold GetBatch.
  rewrite Hopen. cbn [negb]. unfold mbind, M_bind, db_View.
  rewrite Hdb. unfold Badger.IsClosed. rewrite Hnc.
  rewrite batch_loop_foldl.
  rewrite (foldl_insert_union Base64.EncodeToString Badger.item_value)
    by apply iter_items_NoDup.
  rewrite (right_id ∅ (∪)).
  unfold mret, M_ret. do 3 f_equal.
  unfold live_table. rewrite map_filter_alt.
  rewrite <- list_to_map_fmap.
  rewrite kmap_list_to_map by apply _.
  rewrite <- list_fmap_compose.
  reflexivity.
Qed.



Example GetBatch_sample :
  GetBatch sample_world
  = Ret (Some {[ "kAFQmDzST7DWlj99KOF/cg=="%string := sample_payload ]}, None)
        (record CallView sample_world).
Proof. vm_compute. reflexivity. Qed.

(* ===================================================================== *)
(** ** Remove and RemoveBatch *)
(* ===================================================================== *)

Lemma check_key_nil : check_key [] = Some Badger.ErrEmptyKey.
Proof. reflexivity. Qed.

Lemma check_key_None_length (k : list byte) :
  check_key k = None -> (length k =? 0)%nat = false.
Proof.
  unfold check_key. destruct (length k =? 0)%nat; [discriminate|reflexivity].
Qed.

Lemma table_after_cons (k : list byte) (keys : list (list byte))
    (tbl : gmap (list byte) Badger.Item) :
  table_after (k :: keys) tbl
  = table_after keys (match check_key k with
                      | Some _ => tbl
                      | None => delete k tbl
                      end).
Proof. reflexivity. Qed.

Lemma errs_after_cons (k : list byte) (keys : list (list byte))
    (errs : gmap string error) :
  errs_after (k :: keys) errs
  = errs_after keys
      (if (length k =? 0)%nat then errs
       else match check_key k with
            | Some e => <[Base64.EncodeToString k := badger_error e]> errs
            | None => errs
            end).
Proof. reflexivity. Qed.

Lemma with_table_id (d : Badger.DB) : with_table (Badger.table d) d = d.
Proof. destruct d; reflexivity. Qed.

Lemma Remove_open (w : World) (d : Badger.DB) (key : list byte) :
  OpenOn w d ->
  Remove key w
  = match check_key key with
    | Some err =>
        Ret (Some (badger_error err))
            (record CallDiscard (record (CallNewTransaction true) w))
    | None =>
        Ret None
            (record CallDiscard
               (record CallCommit
                  (set_db
                     (Some (with_table (delete key (Badger.table d)) d))
                     (record (CallNewTransaction true) w))))
    end.
Proof.
  intros (Hopen & Hdb & Hnc). unfold Remove. rewrite Hopen. cbn [negb].
  unfold mbind, M_bind, db_NewTransaction. rewrite Hdb.
  unfold Badger.Txn_Delete. rewrite modify_fresh. cbn [Badger.Key].
  destruct (check_key key); [reflexivity|].
  unfold txn_Commit. cbn [db record]. rewrite Hdb.
  unfold Badger.Commit, with_table. cbn. rewrite Hnc. reflexivity.
Qed.

Lemma remove_loop_open (keys : list (list byte)) :
  ∀ (errs : gmap string error) (w : World) (d : Badger.DB),
    OpenOn w d ->
    ∃ w', remove_loop keys errs w = Ret (errs_after keys errs) w'
          ∧ db w' = Some (with_table (table_after keys (Badger.table d)) d)
          ∧ isOpen w' = true ∧ fs w' = fs w ∧ clock w' = clock w.
Proof.
  induction keys as [|k keys IH]; intros errs w d Hopen.
  - exists w. cbn. rewrite with_table_id.
    destruct Hopen as (? & ? & ?). repeat split; assumption.
  - cbn [remove_loop]. rewrite errs_after_cons, table_after_cons.
    destruct (length k =? 0)%nat eqn:Hlen.
    + assert (check_key k = Some Badger.ErrEmptyKey) as ->
        by (unfold check_key; now rewrite Hlen).
      apply IH, Hopen.
    + unfold mbind, M_bind. rewrite (Remove_open w d k Hopen).
      pose proof Hopen as (Ho & Hdb & Hnc).
      destruct (check_key k) as [be|].
      * destruct (IH (<[Base64.EncodeToString k := badger_error be]> errs)
                    (record CallDiscard (record (CallNewTransaction true) w)) d)
          as (w' & Hrun & Hrest); [repeat split; assumption|].
        exists w'. split; [exact Hrun | exact Hrest].
      * destruct (IH errs
                    (record CallDiscard
                       (record CallCommit
                          (set_db
                             (Some (with_table (delete k (Badger.table d)) d))
                             (record (CallNewTransaction true) w))))
                    (with_table (delete k (Badger.table d)) d))
          as (w' & Hrun & Hrest); [repeat split; assumption|].
        exists w'. split; [exact Hrun | exact Hrest].
Qed.

Lemma table_after_lookup (keys : list (list byte)) :
  ∀ (tbl : gmap (list byte) Badger.Item) (k : list byte),
    table_after keys tbl !! k
    = if decide (k ∈ keys ∧ check_key k = None) then None else tbl !! k.
Proof.
  induction keys as [|k0 keys IH]; intros tbl k.
  - cbn. case_decide as H; [|reflexivity]. destruct H as [H _]. inversion H.
  - rewrite table_after_cons, IH.
    destruct (decide (k ∈ keys ∧ check_key k = None)) as [[Hin Hc]|Hno].
    + rewrite decide_True; [reflexivity|]. split; [now right | exact Hc].
    + destruct (check_key k0) as [be|] eqn:Hc0.
      * rewrite decide_False; [reflexivity|].
        intros [Hin Hc]. apply Hno. split; [|exact Hc].
        apply elem_of_cons in Hin as [->|Hin]; [congruence | exact Hin].
      * destruct (decide (k = k0)) as [->|Hne].
        -- rewrite lookup_delete_eq, decide_True; [reflexivity|].
           split; [now left | exact Hc0].
        -- rewrite lookup_delete_ne by congruence.
           rewrite decide_False; [reflexivity|].
           intros [Hin Hc]. apply Hno. split; [|exact Hc].
           apply elem_of_cons in Hin as [->|Hin]; [congruence | exact Hin].
Qed.

Lemma errs_after_keeps (keys : list (list byte)) :
  ∀ (errs : gmap string error) (k : list byte) (be : Badger.Error),
    check_key k = Some be ->
    errs !! Base64.EncodeToString k = Some (badger_error be) ->
    errs_after keys errs !! Base64.EncodeToString k = Some (badger_error be).
Proof.
  induction keys as [|k0 keys IH]; intros errs k be Hc Hk; [exact Hk|].
  rewrite errs_after_cons.
  destruct (length k0 =? 0)%nat; [now apply IH|].
  destruct (check_key k0) as [be0|] eqn:Hc0; [|now apply IH].
  apply IH; [exact Hc|].
  destruct (decide (k0 = k)) as [->|Hne].
  - rewrite lookup_insert_eq. congruence.
  - rewrite lookup_insert_ne; [exact Hk|].
    intros Heq. apply Hne. now apply Base64Facts.EncodeToString_inj.
Qed.

Lemma errs_after_records (keys : list (list byte)) :
  ∀ (errs : gmap string error) (k : list byte) (be : Badger.Error),
    k ∈ keys -> k ≠ [] -> check_key k = Some be ->
    errs_after keys errs !! Base64.EncodeToString k = Some (badger_error be).
Proof.
  induction keys as [|k0 keys IH]; intros errs k be Hin Hne Hc;
    [inversion Hin|].
  rewrite errs_after_cons.
  apply elem_of_cons in Hin as [<-|Hin].
  - assert ((length k =? 0)%nat = false) as ->
      by (destruct k; [congruence | reflexivity]).
    rewrite Hc. apply errs_after_keeps; [exact Hc|].
    apply lookup_insert_eq.
  - destruct (length k0 =? 0)%nat; [now apply IH|].
    destruct (check_key k0); now apply IH.
Qed.

Lemma errs_after_origin (keys : list (list byte)) :
  ∀ (errs : gmap string error) (s : string) (e : error),
    errs_after keys errs !! s = Some e ->
    errs !! s = Some e
    ∨ ∃ k be, k ∈ keys ∧ k ≠ [] ∧ s = Base64.EncodeToString k
              ∧ check_key k = Some be ∧ e = badger_error be.
Proof.
  induction keys as [|k0 keys IH]; intros errs s e Hs; [now left|].
  rewrite errs_after_cons in Hs.
  assert (∀ P : list byte -> Prop,
            (∃ k be, k ∈ keys ∧ P k ∧ s = Base64.EncodeToString k
                     ∧ check_key k = Some be ∧ e = badger_error be) ->
            ∃ k be, k ∈ k0 :: keys ∧ P k ∧ s = Base64.EncodeToString k
                    ∧ check_key k = Some be ∧ e = badger_error be) as Hlift.
  { intros P (k & be & Hin & Hrest). exists k, be.
    split; [now right | exact Hrest]. }
  destruct (length k0 =? 0)%nat eqn:Hlen.
  { apply IH in Hs as [Hs|Hs]; [now left | right; now apply Hlift]. }
  destruct (check_key k0) as [be0|] eqn:Hc0.
  2:{ apply IH in Hs as [Hs|Hs]; [now left | right; now apply Hlift]. }
  apply IH in Hs as [Hs|Hs]; [|right; now apply Hlift].
  destruct (decide (Base64.EncodeToString k0 = s)) as [<-|Hne].
  - rewrite lookup_insert_eq in Hs. injection Hs as <-. right.
    exists k0, be0. split; [now left|].
    split; [intros ->; discriminate Hlen|]. auto.
  - rewrite lookup_insert_ne in Hs by exact Hne. now left.
Qed.

(** C9, as the code has it.  On an open store [Remove] of a key the
    engine accepts (of positive length, at most 65000 bytes, not under
    the engine's own prefix) succeeds whether or not the key has a
    record, and afterwards the key has none; of a key the engine rejects
    it returns the engine's error.  [RemoveBatch] goes through
    all the keys: it skips those of zero length, deletes each key the
    engine accepts, records the engine's error for each other key under
    the base64 encoding of that key, and returns [true] exactly when that
    mapping is empty. *)
Theorem deletion_contract (w : World) (d : Badger.DB) (key : list byte)
    (keys : list (list byte)) (Hopen : OpenOn w d) :
  (check_key key = None -> Badger.table d !! key = None ->
   ∃ w', Remove key w = Ret None w' ∧ db w' = Some d)
  ∧ (check_key key = None ->
     ∃ w' d', Remove key w = Ret None w' ∧ db w' = Some d'
              ∧ Badger.table d' = delete key (Badger.table d)
              ∧ Badger.table d' !! key = None)
  ∧ (∀ be, check_key key = Some be ->
           ∃ w', Remove key w = Ret (Some (badger_error be)) w'
                 ∧ db w' = Some d)
  ∧ (∃ errs w' d',
       RemoveBatch keys w = Ret (bool_decide (size errs = 0%nat), errs) w'
       ∧ db w' = Some d'
       ∧ (∀ k, Badger.table d' !! k
               = if decide (k ∈ keys ∧ check_key k = None) then None
                 else Badger.table d !! k)
       ∧ (∀ s e, errs !! s = Some e ↔
                 ∃ k be, k ∈ keys ∧ k ≠ [] ∧ s = Base64.EncodeToString k
                         ∧ check_key k = Some be ∧ e = badger_error be)
       ∧ (bool_decide (size errs = 0%nat) = true ↔ errs = ∅)).
Proof.
  split; [|split; [|split]].
  - intros Hc Habsent. rewrite (Remove_open w d key Hopen), Hc.
    eexists. split; [reflexivity|]. cbn.
    rewrite delete_id by exact Habsent. now rewrite with_table_id.
  - intros Hc. rewrite (Remove_open w d key Hopen), Hc.
    eexists _, (with_table (delete key (Badger.table d)) d).
    split; [reflexivity|]. split; [reflexivity|]. split; [reflexivity|].
    apply lookup_delete_eq.
  - intros be Hc. rewrite (Remove_open w d key Hopen), Hc.
    eexists. split; [reflexivity|]. exact (proj1 (proj2 Hopen)).
  - pose proof Hopen as (Ho & Hdb & Hnc).
    destruct (remove_loop_open keys ∅
                (record (CallNewTransaction true) w) d)
      as (w' & Hrun & Hdb' & _); [repeat split; assumption|].
    exists (errs_after keys ∅), (record CallDiscard w'),
      (with_table (table_after keys (Badger.table d)) d).
    split; [|split; [|split; [|split]]].
    + unfold RemoveBatch, mbind, M_bind, db_NewTransaction.
      rewrite Hdb, Hrun. reflexivity.
    + exact Hdb'.
    + intros k. apply table_after_lookup.
    + intros s e. split.
      * intros Hs. apply errs_after_origin in Hs as [Hs|Hs]; [|exact Hs].
        rewrite lookup_empty in Hs. discriminate.
      * intros (k & be & Hin & Hne & -> & Hc & ->).
        now apply errs_after_records.
    + rewrite bool_decide_eq_true. apply map_size_empty_iff.
Qed.

Lemma deletion_contract_witness :
  (∃ w', Remove (repeat x00 16) sample_world = Ret None w'
         ∧ db w' = Some sample_db)
  ∧ (∃ w' d', Remove sample_key sample_world = Ret None w' ∧ db w' = Some d'
              ∧ Badger.table d' = delete sample_key (Badger.table sample_db)
              ∧ Badger.table d' !! sample_key = None)
  ∧ (∃ w', Remove [] sample_world
           = Ret (Some (badger_error Badger.ErrEmptyKey)) w'
           ∧ db w' = Some sample_db)
  ∧ (∃ errs w' d',
       RemoveBatch [[]; of_string "!badger!x"; sample_key] sample_world
       = Ret (bool_decide (size errs = 0%nat), errs) w'
       ∧ db w' = Some d'
       ∧ (∀ k, Badger.table d' !! k
               = if decide (k ∈ [[]; of_string "!badger!x"; sample_key]
                            ∧ check_key k = None) then None
                 else Badger.table sample_db !! k)
       ∧ (∀ s e, errs !! s = Some e ↔
                 ∃ k be, k ∈ [[]; of_string "!badger!x"; sample_key] ∧ k ≠ []
                         ∧ s = Base64.EncodeToString k
                         ∧ check_key k = Some be ∧ e = badger_error be)
       ∧ (bool_decide (size errs = 0%nat) = true ↔ errs = ∅)).
Proof.
  split; [|split; [|split]].
  - apply (proj1 (deletion_contract sample_world sample_db (repeat x00 16) []
                    sample_world_open)).
    + vm_compute. reflexivity.
    + vm_compute. reflexivity.
  - apply (proj1 (proj2 (deletion_contract sample_world sample_db sample_key []
                           sample_world_open))).
    vm_compute. reflexivity.
  - apply (proj1 (proj2 (proj2 (deletion_contract sample_world sample_db [] []
                                  sample_world_open)))).
    reflexivity.
  - apply (proj2 (proj2 (proj2 (deletion_contract sample_world sample_db
                                  sample_key
                                  [[]; of_string "!badger!x"; sample_key]
                                  sample_world_open)))).
Defined.

Example RemoveBatch_sample :
  ∃ w', RemoveBatch [[]; of_string "!badger!x"; sample_key] sample_world
        = Ret (false,
               {[ "IWJhZGdlciF4"%string := badger_error Badger.ErrInvalidKey ]})
              w'
        ∧ db w' = Some (with_table ∅ sample_db).
Proof. eexists. split; vm_compute; reflexivity. Qed.

(** C9, as the specification words it, fails at the key of zero
    length: on an open store it has no record, and [Remove] returns the
    engine's [ErrEmptyKey]. *)
Lemma Remove_empty_key_fails :
  OpenOn sample_world sample_db
  ∧ Badger.table sample_db !! [] = None
  ∧ Remove [] sample_world
    = Ret (Some (badger_error Badger.ErrEmptyKey))
          (record CallDiscard (record (CallNewTransaction true) sample_world)).
Proof.
  split; [exact sample_world_open|]. split; vm_compute; reflexivity.
Qed.

(* ===================================================================== *)
(** ** The store invariant *)
(* ===================================================================== *)

Lemma modify_fresh_pending (e : Badger.Entry) (t : Badger.Txn) :
  Badger.modify (Badger.NewTransaction true) e = (None, t) ->
  check_key (Badger.Key e) = None ∧ Badger.pendingWrites t = [e].
Proof.
  rewrite modify_fresh. destruct (check_key _); [discriminate|].
  intros [= <-]. split; reflexivity.
Qed.

Lemma GenPK_ok (data : list byte) (key : slice) :
  GenPK data = (key, None) -> GenPK data = (Some (bytes key), None).
Proof.
  destruct data as [|b data]; [discriminate|].
  rewrite GenPK_nonempty by discriminate. now intros [= <-].
Qed.

Lemma Get_frame (key : list byte) (w w' : World) (r : slice * option error) :
  Get key w = Ret r w' -> db w' = db w ∧ fs w' = fs w.
Proof.
  assert (∀ r0, Ret r0 (record CallView w) = Ret r w' ->
                db w' = db w ∧ fs w' = fs w) as Hview
    by (intros r0 [= _ <-]; split; reflexivity).
  unfold Get.
  destruct (negb (isOpen w)); [intros [= _ <-]; split; reflexivity|].
  destruct (negb _); [intros [= _ <-]; split; reflexivity|].
  unfold mbind, M_bind, db_View. destruct (db w) as [d|] eqn:Hd;
    [|discriminate].
  destruct (Badger.IsClosed d); [apply Hview|].
  destruct (Badger.Txn_Get _ _ _ _); cbn; apply Hview.
Qed.

Lemma GetBatch_frame (w w' : World)
    (r : option (gmap string (list byte)) * option error) :
  GetBatch w = Ret r w' -> db w' = db w ∧ fs w' = fs w.
Proof.
  unfold GetBatch.
  destruct (negb (isOpen w)); [intros [= _ <-]; split; reflexivity|].
  unfold mbind, M_bind, db_View. destruct (db w) as [d|] eqn:Hd;
    [|discriminate].
  destruct (Badger.IsClosed d).
  - intros [= _ <-]. split; [exact Hd | reflexivity].
  - destruct (batch_loop _ _). intros [= _ <-].
    split; [exact Hd | reflexivity].
Qed.

Section table_invariant.
Variable P : list byte -> Badger.Item -> Prop.
Hypothesis P_writes : holds_of_writes P.

Lemma tables_inv_same (w w' : World) :
  db w' = db w -> fs w' = fs w -> tables_inv P w -> tables_inv P w'.
Proof.
  intros Hdb Hfs [H1 H2]. split; [rewrite Hdb | rewrite Hfs]; assumption.
Qed.

Lemma tables_inv_set_db (w : World) (d : Badger.DB) :
  map_Forall P (Badger.table d) -> tables_inv P w ->
  tables_inv P (set_db (Some d) w).
Proof.
  intros Hd [_ Hfs]. split; [|exact Hfs]. intros d' [= <-]. exact Hd.
Qed.

Lemma apply_entry_inv (tbl : gmap (list byte) Badger.Item)
    (e : Badger.Entry) :
  map_Forall P tbl -> entry_ok P e ->
  map_Forall P (Badger.apply_entry tbl e).
Proof.
  intros Htbl He. unfold Badger.apply_entry.
  destruct (Badger.bitDelete e) eqn:Hdel.
  - now apply map_Forall_delete.
  - destruct He as [He|He]; [congruence|].
    apply map_Forall_insert_2; assumption.
Qed.

Lemma foldl_apply_inv (es : list Badger.Entry) :
  Forall (entry_ok P) es ->
  ∀ tbl, map_Forall P tbl ->
         map_Forall P (foldl Badger.apply_entry tbl es).
Proof.
  induction 1 as [|e es He _ IH]; intros tbl Htbl; [exact Htbl|].
  cbn [foldl]. apply IH. now apply apply_entry_inv.
Qed.

Lemma Commit_inv (t : Badger.Txn) (d d' : Badger.DB)
    (err : option Badger.Error) :
  Badger.Commit t d = (err, d') ->
  Forall (entry_ok P) (Badger.pendingWrites t) ->
  map_Forall P (Badger.table d) -> map_Forall P (Badger.table d').
Proof.
  unfold Badger.Commit. intros Hc Hok Hd.
  destruct (Badger.discarded t); [now injection Hc as _ <-|].
  destruct (Badger.pendingWrites t) as [|e es] eqn:Hp;
    [now injection Hc as _ <-|].
  destruct (Badger.closed d); injection Hc as _ <-; [exact Hd|].
  exact (foldl_apply_inv (e :: es) Hok _ Hd).
Qed.

(** Committing the single write of a fresh transaction. *)
Lemma write_preserves {A} (e : Badger.Entry) (ok : A)
    (failed : error -> A) (w w' : World) (r : A) :
  (check_key (Badger.Key e) = None -> entry_ok P e) -> tables_inv P w ->
  (txn ← db_NewTransaction true;
   match Badger.modify txn e with
   | (Some err, txn) =>
       _ ← txn_Discard txn; mret (failed (badger_error err))
   | (None, txn) =>
       err ← txn_Commit txn;
       match err with
       | Some err => mret (failed err)
       | None => mret ok
       end
   end) w = Ret r w' ->
  tables_inv P w'.
Proof.
  intros He Hinv. unfold mbind, M_bind, db_NewTransaction.
  destruct (db w) as [d|] eqn:Hd; [|discriminate].
  destruct (Badger.modify _ e) as [[err|] t] eqn:Hm.
  - intros [= _ <-]. eapply tables_inv_same; [| |exact Hinv]; reflexivity.
  - apply modify_fresh_pending in Hm as [Hck Hm].
    unfold txn_Commit. cbn [db record].
    rewrite Hd. destruct (Badger.Commit t d) as [cerr d'] eqn:Hc.
    assert (tables_inv P
              (record CallCommit
                 (set_db (Some d') (record (CallNewTransaction true) w))))
      as Hinv'.
    { apply (tables_inv_same (set_db (Some d') w)); [reflexivity..|].
      apply tables_inv_set_db; [|exact Hinv].
      eapply Commit_inv; [exact Hc | |apply (proj1 Hinv _ Hd)].
      rewrite Hm. constructor; [now apply He | constructor]. }
    destruct cerr; cbn; intros [= _ <-]; exact Hinv'.
Qed.

Lemma Set_preserves (data : list byte) (w w' : World)
    (r : slice * option error) :
  tables_inv P w -> Set_ data w = Ret r w' -> tables_inv P w'.
Proof.
  intros Hinv. unfold Set_.
  destruct (negb (isOpen w)); [now intros [= _ <-]|].
  destruct (GenPK data) as [key [err|]] eqn:Hpk; [now intros [= _ <-]|].
  apply GenPK_ok in Hpk.
  unfold mbind at 1, M_bind at 1.
  destruct (Get (bytes key) w) as [[e gerr] w1|] eqn:Hget; [|discriminate].
  apply Get_frame in Hget as [Hdb1 Hfs1].
  assert (tables_inv P w1) as Hinv1 by (now apply (tables_inv_same w)).
  destruct e as [e|]; [now intros [= _ <-]|].
  apply (write_preserves (Badger.NewEntry (bytes key) data)
           (key, None) (fun err => (None, Some err)));
    [|exact Hinv1].
  intros Hck. right. now apply P_writes.
Qed.

Lemma SetWithTTL_preserves (data : list byte) (ttl : Z) (w w' : World)
    (r : slice * option error) :
  tables_inv P w -> SetWithTTL data ttl w = Ret r w' -> tables_inv P w'.
Proof.
  intros Hinv. unfold SetWithTTL.
  destruct (negb (isOpen w)); [now intros [= _ <-]|].
  destruct (GenPK data) as [key [err|]] eqn:Hpk; [now intros [= _ <-]|].
  apply GenPK_ok in Hpk.
  apply (write_preserves
           (Badger.WithTTL (clock w) ttl (Badger.NewEntry (bytes key) data))
           (key, None) (fun err => (None, Some err)));
    [|exact Hinv].
  intros Hck. right. now apply P_writes.
Qed.

Lemma Remove_preserves (key : list byte) (w w' : World) (r : option error) :
  tables_inv P w -> Remove key w = Ret r w' -> tables_inv P w'.
Proof.
  intros Hinv. unfold Remove.
  destruct (negb (isOpen w)); [now intros [= _ <-]|].
  unfold mbind, M_bind, db_NewTransaction.
  destruct (db w) as [d|] eqn:Hd; [|discriminate].
  destruct (Badger.Txn_Delete _ key) as [[err|] t] eqn:Hm.
  - intros [= _ <-]. eapply tables_inv_same; [| |exact Hinv]; reflexivity.
  - apply modify_fresh_pending in Hm as [_ Hm].
    unfold txn_Commit. cbn [db record].
    rewrite Hd. destruct (Badger.Commit t d) as [cerr d'] eqn:Hc.
    cbn. intros [= _ <-].
    apply (tables_inv_same (set_db (Some d') w)); [reflexivity..|].
    apply tables_inv_set_db; [|exact Hinv].
    eapply Commit_inv; [exact Hc | |apply (proj1 Hinv _ Hd)].
    rewrite Hm. constructor; [now left | constructor].
Qed.

Lemma remove_loop_preserves (keys : list (list byte)) :
  ∀ (errs errs' : gmap string error) (w w' : World),
    tables_inv P w -> remove_loop keys errs w = Ret errs' w' ->
    tables_inv P w'.
Proof.
  induction keys as [|k keys IH]; intros errs errs' w w' Hinv;
    cbn [remove_loop].
  - now intros [= _ <-].
  - destruct (length k =? 0)%nat; [now apply IH|].
    unfold mbind, M_bind.
    destruct (Remove k w) as [err w1|] eqn:Hrm; [|discriminate].
    apply Remove_preserves in Hrm; [|exact Hinv].
    destruct err; now apply IH.
Qed.

Lemma RemoveBatch_preserves (keys : list (list byte)) (w w' : World)
    (r : bool * gmap string error) :
  tables_inv P w -> RemoveBatch keys w = Ret r w' -> tables_inv P w'.
Proof.
  intros Hinv. unfold RemoveBatch, mbind, M_bind, db_NewTransaction.
  destruct (db w) as [d|] eqn:Hd; [|discriminate].
  destruct (remove_loop keys ∅ _) as [errs w1|] eqn:Hloop; [|discriminate].
  apply remove_loop_preserves in Hloop.
  - intros [= _ <-]. now apply (tables_inv_same w1).
  - now apply (tables_inv_same w).
Qed.

Lemma Close_preserves (w w' : World) (r : option error) :
  tables_inv P w -> Close w = Ret r w' -> tables_inv P w'.
Proof.
  intros Hinv. unfold Close.
  destruct (db w) as [d|] eqn:Hd.
  2:{ intros [= _ <-]. eapply tables_inv_same; [| |exact Hinv]; reflexivity. }
  destruct (Badger.IsClosed d).
  { intros [= _ <-]. eapply tables_inv_same; [| |exact Hinv]; reflexivity. }
  cbn. intros [= _ <-]. pose proof (proj1 Hinv d Hd) as Hstored.
  split; cbn.
  - intros d' [= <-]. exact Hstored.
  - destruct (Badger.InMemory (Badger.opt d)); [exact (proj2 Hinv)|].
    apply map_Forall_insert_2; [exact Hstored | exact (proj2 Hinv)].
Qed.

Lemma Open_inv (io : option Badger.Error) (f : Badger.FS)
    (o : Badger.Options) (d : Badger.DB) :
  map_Forall (fun _ tbl => map_Forall P tbl) f ->
  Badger.Open io f o = inr d -> map_Forall P (Badger.table d).
Proof.
  intros Hf. unfold Badger.Open. destruct io; [discriminate|].
  intros [= <-]. cbn [Badger.table].
  destruct (Badger.InMemory o); [apply map_Forall_empty|].
  destruct (f !! Badger.Dir o) as [tbl|] eqn:Hdir; cbn.
  - exact (Hf _ _ Hdir).
  - apply map_Forall_empty.
Qed.

Lemma Init_preserves (io : option Badger.Error) (w w' : World)
    (r : option error) :
  tables_inv P w ->
  InitPersistentMode io w = Ret r w' ∨ InitDisklessMode io w = Ret r w' ->
  tables_inv P w'.
Proof.
  intros Hinv. unfold InitPersistentMode, InitDisklessMode.
  destruct (still_open w); [intros [[= _ <-]|[= _ <-]]; exact Hinv|].
  intros [Hrun|Hrun];
    (destruct (Badger.Open io (fs w) _) as [err|d] eqn:Hopen;
     injection Hrun as _ <-;
     [ eapply tables_inv_same; [| |exact Hinv]; reflexivity
     | apply (tables_inv_same (set_db (Some d) w)); [reflexivity..|];
       apply tables_inv_set_db; [|exact Hinv];
       exact (Open_inv _ _ _ _ (proj2 Hinv) Hopen) ]).
Qed.

Lemma exec_preserves (o : Op) (w w' : World) :
  tables_inv P w -> exec o w = Some w' -> tables_inv P w'.
Proof.
  intros Hinv.
  assert (∀ A (out : Outcome A),
            world_of out = Some w' -> ∃ r, out = Ret r w') as Hret.
  { intros A [r w0|msg]; cbn; [intros [= ->]; eauto | discriminate]. }
  destruct o; cbn [exec]; try (intros Hw; apply Hret in Hw as [r Hrun]).
  - eapply Init_preserves; [exact Hinv | left; exact Hrun].
  - eapply Init_preserves; [exact Hinv | right; exact Hrun].
  - eapply Close_preserves; [exact Hinv | exact Hrun].
  - injection Hrun as _ <-. exact Hinv.
  - eapply Set_preserves; [exact Hinv | exact Hrun].
  - eapply SetWithTTL_preserves; [exact Hinv | exact Hrun].
  - apply Get_frame in Hrun as [Hd Hf]. now apply (tables_inv_same w).
  - apply GetBatch_frame in Hrun as [Hd Hf]. now apply (tables_inv_same w).
  - eapply Remove_preserves; [exact Hinv | exact Hrun].
  - eapply RemoveBatch_preserves; [exact Hinv | exact Hrun].
  - intros [= <-]. eapply tables_inv_same; [| |exact Hinv]; reflexivity.
Qed.

Lemma reachable_tables_inv (w : World) :
  (∀ tbl, stored_by_GenPK tbl ∧ keys_checked tbl -> map_Forall P tbl) ->
  reachable w -> tables_inv P w.
Proof.
  intros Hdisk. induction 1 as [now f Hf|w o w' _ IH Hstep].
  - split; [discriminate|]. intros dir tbl Hdir.
    apply Hdisk. exact (Hf dir tbl Hdir).
  - exact (exec_preserves o w w' IH Hstep).
Qed.
End table_invariant.

Lemma GenPK_holds_of_writes :
  holds_of_writes
    (fun k it => GenPK (Badger.item_value it) = (Some k, None)).
Proof. intros data key exp Hpk _. exact Hpk. Qed.

Lemma check_key_holds_of_writes :
  holds_of_writes (fun k _ => check_key k = None).
Proof. intros data key exp _ Hck. exact Hck. Qed.

Lemma reachable_store_inv (w : World) : reachable w -> store_inv w.
Proof.
  apply reachable_tables_inv; [apply GenPK_holds_of_writes|].
  intros tbl [Hstored _]. exact Hstored.
Qed.

(** The hypothesis of [duplicate_handling] on the engine's table holds in
    every reachable state. *)
Lemma reachable_keys_checked (w : World) (d : Badger.DB) :
  reachable w -> db w = Some d -> keys_checked (Badger.table d).
Proof.
  intros Hreach Hd.
  apply (proj1 (reachable_tables_inv (fun k _ => check_key k = None)
                  check_key_holds_of_writes w
                  (fun tbl H => proj2 H) Hreach) d Hd).
Qed.

(** C10. In every state reached through the public operations each
    stored key is the 16-byte digest [GenPK] gives for the payload stored
    under it, and that payload is not empty; [Set], [SetWithTTL],
    [Remove] and [RemoveBatch] each keep it so. *)
Theorem store_invariant :
  (∀ w d k it,
     reachable w -> db w = Some d -> Badger.table d !! k = Some it ->
     GenPK (Badger.item_value it) = (Some k, None)
     ∧ k = MD5.sum (Badger.item_value it)
     ∧ length k = 16%nat
     ∧ Badger.item_value it ≠ [])
  ∧ (∀ data w r w', store_inv w -> Set_ data w = Ret r w' -> store_inv w')
  ∧ (∀ data ttl w r w',
       store_inv w -> SetWithTTL data ttl w = Ret r w' -> store_inv w')
  ∧ (∀ key w r w', store_inv w -> Remove key w = Ret r w' -> store_inv w')
  ∧ (∀ keys w r w',
       store_inv w -> RemoveBatch keys w = Ret r w' -> store_inv w').
Proof.
  split; [|split; [|split; [|split]]].
  - intros w d k it Hreach Hd Hk.
    pose proof (proj1 (reachable_store_inv w Hreach) d Hd k it Hk) as Hpk.
    split; [exact Hpk|]. apply GenPK_Some in Hpk. tauto.
  - intros data w r w'. apply Set_preserves, GenPK_holds_of_writes.
  - intros data ttl w r w'. apply SetWithTTL_preserves, GenPK_holds_of_writes.
  - intros key w r w'. apply Remove_preserves.
  - intros keys w r w'. apply RemoveBatch_preserves.
Qed.

Lemma sample_fresh_inv : store_inv sample_fresh.
Proof.
  split.
  - intros d [= <-]. apply map_Forall_empty.
  - apply map_Forall_empty.
Qed.

Lemma sample_world_reachable : reachable sample_world.
Proof.
  apply (reach_step sample_fresh (OpSet sample_payload));
    [|vm_compute; reflexivity].
  apply (reach_step (start 10000000000 ∅) (OpInitDisklessMode None));
    [|vm_compute; reflexivity].
  apply reach_start, map_Forall_empty.
Qed.

Lemma store_invariant_witness :
  (GenPK (Badger.item_value (Badger.mkItem sample_payload 0))
   = (Some sample_key, None)
   ∧ sample_key = MD5.sum (Badger.item_value (Badger.mkItem sample_payload 0))
   ∧ length sample_key = 16%nat
   ∧ Badger.item_value (Badger.mkItem sample_payload 0) ≠ [])
  ∧ store_inv sample_world
  ∧ store_inv (sleep (-2000000000) sample_ttl_world)
  ∧ store_inv (record CallDiscard
                 (record CallCommit
                    (set_db (Some (with_table ∅ sample_db))
                       (record (CallNewTransaction true) sample_world))))
  ∧ store_inv (record CallDiscard
                 (record CallDiscard
                    (record CallCommit
                       (set_db (Some (with_table ∅ sample_db))
                          (record (CallNewTransaction true)
                             (record (CallNewTransaction true) sample_world)))))).
Proof.
  destruct store_invariant as (Hreach & Hset & Httl & Hremove & Hbatch).
  assert (store_inv sample_world) as Hsample.
  { apply (Hset sample_payload sample_fresh (Some sample_key, None)
             sample_world sample_fresh_inv).
    vm_compute. reflexivity. }
  split; [|split; [|split; [|split]]].
  - apply (Hreach sample_world sample_db sample_key
             (Badger.mkItem sample_payload 0) sample_world_reachable).
    + reflexivity.
    + vm_compute. reflexivity.
  - exact Hsample.
  - apply (Httl sample_payload 1000000000 sample_fresh (Some sample_key, None)
             _ sample_fresh_inv).
    vm_compute. reflexivity.
  - apply (Hremove sample_key sample_world None _ Hsample).
    vm_compute. reflexivity.
  - apply (Hbatch [sample_key] sample_world (true, ∅) _ Hsample).
    vm_compute. reflexivity.
Defined.

(* ===================================================================== *)
(** * Further properties *)
(* ===================================================================== *)

(** ** What record operations leave alone *)

Lemma lifecycle_kept_refl (w : World) : lifecycle_kept w w.
Proof. repeat split. Qed.

Lemma lifecycle_kept_trans (w1 w2 w3 : World) :
  lifecycle_kept w1 w2 -> lifecycle_kept w2 w3 -> lifecycle_kept w1 w3.
Proof.
  intros (A1 & A2 & A3 & A4 & A5) (B1 & B2 & B3 & B4 & B5).
  repeat split; congruence.
Qed.

Lemma lifecycle_kept_record (c : Call) (w : World) :
  lifecycle_kept w (record c w).
Proof. repeat split. Qed.

Lemma Commit_keeps (t : Badger.Txn) (d d' : Badger.DB)
    (err : option Badger.Error) :
  Badger.Commit t d = (err, d') ->
  Badger.closed d' = Badger.closed d ∧ Badger.opt d' = Badger.opt d
  ∧ (err ≠ None -> d' = d).
Proof.
  unfold Badger.Commit.
  destruct (Badger.discarded t); [intros [= <- <-]; auto|].
  destruct (Badger.pendingWrites t); [intros [= <- <-]; auto|].
  destruct (Badger.closed d) eqn:Hc; intros [= <- <-]; cbn; auto.
  repeat split; congruence.
Qed.

Lemma txn_Commit_kept (t : Badger.Txn) (w w' : World) (err : option error) :
  txn_Commit t w = Ret err w' -> lifecycle_kept w w'.
Proof.
  unfold txn_Commit. destruct (db w) as [d|] eqn:Hd; [|discriminate].
  destruct (Badger.Commit t d) as [cerr d'] eqn:Hc.
  apply Commit_keeps in Hc as (Hcl & _ & _).
  intros [= _ <-]. unfold lifecycle_kept, still_open, Badger.IsClosed. cbn.
  rewrite Hd, Hcl. repeat split.
Qed.

Lemma Get_kept (key : list byte) (w w' : World) (r : slice * option error) :
  Get key w = Ret r w' -> lifecycle_kept w w' ∧ db w' = db w.
Proof.
  assert (∀ r0, Ret r0 (record CallView w) = Ret r w' ->
                lifecycle_kept w w' ∧ db w' = db w) as Hview
    by (intros r0 [= _ <-]; split; [apply lifecycle_kept_record | reflexivity]).
  assert (∀ r0, Ret r0 w = Ret r w' -> lifecycle_kept w w' ∧ db w' = db w)
    as Hsame
    by (intros r0 [= _ <-]; split; [apply lifecycle_kept_refl | reflexivity]).
  unfold Get.
  destruct (negb (isOpen w)); [apply Hsame|].
  destruct (negb _); [apply Hsame|].
  unfold mbind, M_bind, db_View. destruct (db w) as [d|] eqn:Hd;
    [|discriminate].
  destruct (Badger.IsClosed d); [apply Hview|].
  destruct (Badger.Txn_Get _ _ _ _); cbn; apply Hview.
Qed.

Lemma GetBatch_kept (w w' : World)
    (r : option (gmap string (list byte)) * option error) :
  GetBatch w = Ret r w' -> lifecycle_kept w w' ∧ db w' = db w.
Proof.
  unfold GetBatch.
  destruct (negb (isOpen w)).
  { intros [= _ <-]. split; [apply lifecycle_kept_refl | reflexivity]. }
  unfold mbind, M_bind, db_View. destruct (db w) as [d|] eqn:Hd;
    [|discriminate].
  destruct (Badger.IsClosed d).
  - intros [= _ <-]. split; [apply lifecycle_kept_record | exact Hd].
  - destruct (batch_loop _ _). intros [= _ <-].
    split; [apply lifecycle_kept_record | exact Hd].
Qed.

(** The tail shared by [Set] and [SetWithTTL]. *)
Lemma write_kept {A} (e : Badger.Entry) (ok : A) (failed : error -> A)
    (w w' : World) (r : A) :
  (txn ← db_NewTransaction true;
   match Badger.modify txn e with
   | (Some err, txn) => _ ← txn_Discard txn; mret (failed (badger_error err))
   | (None, txn) =>
       err ← txn_Commit txn;
       match err with
       | Some err => mret (failed err)
       | None => mret ok
       end
   end) w = Ret r w' ->
  lifecycle_kept w w'.
Proof.
  unfold mbind, M_bind, db_NewTransaction.
  destruct (db w) as [d|] eqn:Hd; [|discriminate].
  destruct (Badger.modify _ e) as [[err|] t].
  - intros [= _ <-]. repeat split.
  - destruct (txn_Commit t _) as [cerr w1|] eqn:Hc; [|discriminate].
    apply txn_Commit_kept in Hc.
    assert (lifecycle_kept w w1) as Hk
      by (eapply lifecycle_kept_trans; [apply lifecycle_kept_record | exact Hc]).
    destruct cerr; intros [= _ <-]; exact Hk.
Qed.

Lemma Set_kept (data : list byte) (w w' : World) (r : slice * option error) :
  Set_ data w = Ret r w' -> lifecycle_kept w w'.
Proof.
  unfold Set_.
  destruct (negb (isOpen w)); [intros [= _ <-]; apply lifecycle_kept_refl|].
  destruct (GenPK data) as [key [err|]];
    [intros [= _ <-]; apply lifecycle_kept_refl|].
  unfold mbind at 1, M_bind at 1.
  destruct (Get (bytes key) w) as [[e gerr] w1|] eqn:Hget; [|discriminate].
  apply Get_kept in Hget as [Hk1 _].
  destruct e as [e|]; [intros [= _ <-]; exact Hk1|].
  intros Hrun. eapply lifecycle_kept_trans; [exact Hk1|].
  exact (write_kept _ _ _ _ _ _ Hrun).
Qed.

Lemma SetWithTTL_kept (data : list byte) (ttl : Z) (w w' : World)
    (r : slice * option error) :
  SetWithTTL data ttl w = Ret r w' -> lifecycle_kept w w'.
Proof.
  unfold SetWithTTL.
  destruct (negb (isOpen w)); [intros [= _ <-]; apply lifecycle_kept_refl|].
  destruct (GenPK data) as [key [err|]];
    [intros [= _ <-]; apply lifecycle_kept_refl|].
  intros Hrun. exact (write_kept _ _ _ _ _ _ Hrun).
Qed.

Lemma Remove_kept (key : list byte) (w w' : World) (r : option error) :
  Remove key w = Ret r w' -> lifecycle_kept w w'.
Proof.
  unfold Remove.
  destruct (negb (isOpen w)); [intros [= _ <-]; apply lifecycle_kept_refl|].
  unfold mbind, M_bind, db_NewTransaction.
  destruct (db w) as [d|] eqn:Hd; [|discriminate].
  destruct (Badger.Txn_Delete _ key) as [[err|] t].
  - intros [= _ <-]. repeat split.
  - destruct (txn_Commit t _) as [cerr w1|] eqn:Hc; [|discriminate].
    apply txn_Commit_kept in Hc. cbn. intros [= _ <-].
    eapply lifecycle_kept_trans; [apply lifecycle_kept_record|].
    eapply lifecycle_kept_trans; [exact Hc | apply lifecycle_kept_record].
Qed.

Lemma remove_loop_kept (keys : list (list byte)) :
  ∀ (errs errs' : gmap string error) (w w' : World),
    remove_loop keys errs w = Ret errs' w' -> lifecycle_kept w w'.
Proof.
  induction keys as [|k keys IH]; intros errs errs' w w'; cbn [remove_loop].
  - intros [= _ <-]. apply lifecycle_kept_refl.
  - destruct (length k =? 0)%nat; [apply IH|].
    unfold mbind, M_bind.
    destruct (Remove k w) as [err w1|] eqn:Hrm; [|discriminate].
    apply Remove_kept in Hrm. intros Hrest.
    eapply lifecycle_kept_trans; [exact Hrm|].
    destruct err; exact (IH _ _ _ _ Hrest).
Qed.

Lemma RemoveBatch_kept (keys : list (list byte)) (w w' : World)
    (r : bool * gmap string error) :
  RemoveBatch keys w = Ret r w' -> lifecycle_kept w w'.
Proof.
  unfold RemoveBatch, mbind, M_bind, db_NewTransaction.
  destruct (db w) as [d|] eqn:Hd; [|discriminate].
  destruct (remove_loop keys ∅ _) as [errs w1|] eqn:Hloop; [|discriminate].
  apply remove_loop_kept in Hloop. intros [= _ <-].
  eapply lifecycle_kept_trans; [apply lifecycle_kept_record|].
  eapply lifecycle_kept_trans; [exact Hloop | apply lifecycle_kept_record].
Qed.


Lemma sample_step_Set :
  Set_ sample_payload sample_fresh = Ret (Some sample_key, None) sample_world.
Proof. vm_compute. reflexivity. Qed.



(* ===================================================================== *)
(** ** The life cycle of the handle *)
(* ===================================================================== *)

Lemma OpenOn_still_open (w : World) (d : Badger.DB) :
  OpenOn w d -> still_open w = true.
Proof.
  intros (_ & Hdb & Hnc). unfold still_open, Badger.IsClosed.
  now rewrite Hdb, Hnc.
Qed.

Lemma still_open_OpenOn (w : World) :
  isOpen w = true -> still_open w = true -> ∃ d, OpenOn w d.
Proof.
  unfold still_open, Badger.IsClosed. intros Ho Hs.
  destruct (db w) as [d|] eqn:Hd; [|discriminate].
  exists d. repeat split; [exact Ho | exact Hd|].
  now destruct (Badger.closed d).
Qed.

Lemma Close_run (w : World) :
  ∃ w', Close w = Ret None w'
        ∧ isOpen w' = false ∧ still_open w' = false
        ∧ bound_table w' = bound_table w
        ∧ clock w' = clock w ∧ gcLoops w' = gcLoops w
        ∧ (still_open w = false -> w' = set_isOpen false w).
Proof.
  unfold Close, still_open, bound_table, Badger.IsClosed.
  destruct (db w) as [d|] eqn:Hd.
  - destruct (Badger.closed d) eqn:Hc.
    + exists (set_isOpen false w). cbn. rewrite Hd, Hc. cbn. repeat split.
    + eexists. split; [reflexivity|]. cbn. repeat split. discriminate.
  - exists (set_isOpen false w). cbn. rewrite Hd. repeat split.
Qed.

Lemma init_guard (w : World) (io : option Badger.Error) :
  still_open w = true ->
  InitPersistentMode io w = Ret (Some AlreadyOpenError) w
  ∧ InitDisklessMode io w = Ret (Some AlreadyOpenError) w.
Proof.
  intros Hs. unfold InitPersistentMode, InitDisklessMode. rewrite Hs.
  split; reflexivity.
Qed.

Lemma handle_ok_exec (o : Op) (w w' : World) :
  handle_ok w -> exec o w = Some w' -> handle_ok w'.
Proof.
  unfold handle_ok. intros Hok.
  assert (∀ A (out : Outcome A),
            world_of out = Some w' -> ∃ r, out = Ret r w') as Hret.
  { intros A [r w0|msg]; cbn; [intros [= ->]; eauto | discriminate]. }
  assert (lifecycle_kept w w' -> isOpen w' = still_open w') as Hkept.
  { intros (H1 & H2 & _). congruence. }
  assert (∀ io opts r,
    (if still_open w then Ret (Some AlreadyOpenError) w
     else match Badger.Open io (fs w) opts with
          | inl err => Ret (Some (badger_error err)) (record (CallOpen opts) w)
          | inr d =>
              Ret None
                (set_isOpen true
                   (set_db (Some d) (spawn_gc (record (CallOpen opts) w))))
          end) = Ret r w' -> isOpen w' = still_open w') as Hinit.
  { intros io opts r. destruct (still_open w) eqn:Hs.
    - intros [= _ <-]. congruence.
    - unfold Badger.Open. destruct io as [e|]; intros [= _ <-].
      + cbn. unfold still_open in *. cbn. congruence.
      + reflexivity. }
  destruct o; cbn [exec]; try (intros Hw; apply Hret in Hw as [r Hrun]).
  - exact (Hinit _ _ _ Hrun).
  - exact (Hinit _ _ _ Hrun).
  - destruct (Close_run w) as (w1 & Hc & Ho & Hs & _).
    rewrite Hc in Hrun. injection Hrun as _ <-. congruence.
  - injection Hrun as _ <-. exact Hok.
  - apply Hkept. exact (Set_kept _ _ _ _ Hrun).
  - apply Hkept. exact (SetWithTTL_kept _ _ _ _ _ Hrun).
  - apply Hkept. exact (proj1 (Get_kept _ _ _ _ Hrun)).
  - apply Hkept. exact (proj1 (GetBatch_kept _ _ _ Hrun)).
  - apply Hkept. exact (Remove_kept _ _ _ _ Hrun).
  - apply Hkept. exact (RemoveBatch_kept _ _ _ _ Hrun).
  - intros [= <-]. exact Hok.
Qed.

Lemma reachable_handle_ok (w : World) : reachable w -> handle_ok w.
Proof.
  induction 1 as [now f Hf|w o w' _ IH Hstep]; [reflexivity|].
  exact (handle_ok_exec o w w' IH Hstep).
Qed.

(** X2. In every reachable state [IsOpen] tells the truth: it returns
    [true] exactly when the handle is bound to an engine that has not
    been closed, so an open flag always comes with an engine to work
    on. *)
Theorem IsOpen_accurate (w : World) (Hreach : reachable w) :
  IsOpen w = Ret (still_open w) w
  ∧ (isOpen w = true ↔ ∃ d, OpenOn w d).
Proof.
  pose proof (reachable_handle_ok w Hreach) as Hok. unfold handle_ok in Hok.
  split; [unfold IsOpen; now rewrite Hok|]. split.
  - intros Ho. apply still_open_OpenOn; congruence.
  - intros [d (Ho & _)]. exact Ho.
Qed.

Lemma IsOpen_accurate_witness :
  IsOpen sample_world = Ret (still_open sample_world) sample_world
  ∧ (isOpen sample_world = true ↔ ∃ d, OpenOn sample_world d).
Proof. exact (IsOpen_accurate sample_world sample_world_reachable). Defined.

(* ===================================================================== *)
(** ** Panics *)
(* ===================================================================== *)












(* ===================================================================== *)
(** ** Close and the initialize calls *)
(* ===================================================================== *)

Lemma set_isOpen_false_id (w : World) :
  isOpen w = false -> set_isOpen false w = w.
Proof. destruct w as [d o c f g cs]. cbn. now intros ->. Qed.

(** X4. [Close] never panics, whatever the state, and (the engine's own
    close taken to succeed) returns nil: the handle is no longer open and
    the records of the engine it was bound to are not touched.  From
    then on every guarded record operation returns the not-open error
    without effect, and a second [Close] changes nothing. *)
Theorem Close_then_not_open (w : World) (data key : list byte) (ttl : Z) :
  ∃ w', Close w = Ret None w'
        ∧ isOpen w' = false ∧ still_open w' = false
        ∧ bound_table w' = bound_table w
        ∧ Close w' = Ret None w'
        ∧ Set_ data w' = Ret (None, Some NotOpenError) w'
        ∧ SetWithTTL data ttl w' = Ret (None, Some NotOpenError) w'
        ∧ Get key w' = Ret (None, Some NotOpenError) w'
        ∧ GetBatch w' = Ret (None, Some NotOpenError) w'
        ∧ Remove key w' = Ret (Some NotOpenError) w'.
Proof.
  destruct (Close_run w) as (w' & Hc & Ho & Hs & Ht & _).
  exists w'. repeat (split; [assumption|]).
  split.
  - destruct (Close_run w') as (w'' & Hc' & _ & _ & _ & _ & _ & Hsame).
    rewrite Hc', (Hsame Hs). now rewrite set_isOpen_false_id.
  - exact (not_open_guarded w' data key ttl Ho).
Qed.

(** X5. On a handle that is not bound to an open engine, an initialize
    call that the medium accepts returns nil and leaves the handle open
    on a new engine instance, with one more reclamation loop running: in
    persistent mode the instance holds what the storage directory
    holds, in diskless mode nothing.  When the medium refuses, the call
    returns the engine's error and the handle stays as it was: not open,
    same binding, no new loop. *)
Theorem Init_contract (w : World) (e : Badger.Error)
    (Hnot : still_open w = false) :
  (∃ w' d', InitPersistentMode None w = Ret None w' ∧ OpenOn w' d'
            ∧ Badger.table d' = default ∅ (fs w !! STORAGE_PATH)
            ∧ Badger.InMemory (Badger.opt d') = false
            ∧ Badger.Dir (Badger.opt d') = STORAGE_PATH
            ∧ fs w' = fs w ∧ gcLoops w' = S (gcLoops w))
  ∧ (∃ w' d', InitDisklessMode None w = Ret None w' ∧ OpenOn w' d'
              ∧ Badger.table d' = ∅
              ∧ Badger.InMemory (Badger.opt d') = true
              ∧ fs w' = fs w ∧ gcLoops w' = S (gcLoops w))
  ∧ (∃ w', InitPersistentMode (Some e) w = Ret (Some (badger_error e)) w'
           ∧ lifecycle_kept w w' ∧ db w' = db w)
  ∧ (∃ w', InitDisklessMode (Some e) w = Ret (Some (badger_error e)) w'
           ∧ lifecycle_kept w w' ∧ db w' = db w).
Proof.
  unfold InitPersistentMode, InitDisklessMode. rewrite Hnot.
  split; [|split; [|split]].
  - eexists _, _. split; [reflexivity|]. repeat split.
  - eexists _, _. split; [reflexivity|]. repeat split.
  - eexists. split; [reflexivity|]. repeat split.
  - eexists. split; [reflexivity|]. repeat split.
Qed.

Lemma Init_contract_witness :
  (∃ w' d', InitPersistentMode None (start 0 ∅) = Ret None w' ∧ OpenOn w' d'
            ∧ Badger.table d' = default ∅ (fs (start 0 ∅) !! STORAGE_PATH)
            ∧ Badger.InMemory (Badger.opt d') = false
            ∧ Badger.Dir (Badger.opt d') = STORAGE_PATH
            ∧ fs w' = fs (start 0 ∅) ∧ gcLoops w' = S (gcLoops (start 0 ∅)))
  ∧ (∃ w' d', InitDisklessMode None (start 0 ∅) = Ret None w' ∧ OpenOn w' d'
              ∧ Badger.table d' = ∅
              ∧ Badger.InMemory (Badger.opt d') = true
              ∧ fs w' = fs (start 0 ∅) ∧ gcLoops w' = S (gcLoops (start 0 ∅)))
  ∧ (∃ w', InitPersistentMode (Some (Badger.ErrOpen "locked")) (start 0 ∅)
           = Ret (Some (badger_error (Badger.ErrOpen "locked"))) w'
           ∧ lifecycle_kept (start 0 ∅) w' ∧ db w' = db (start 0 ∅))
  ∧ (∃ w', InitDisklessMode (Some (Badger.ErrOpen "locked")) (start 0 ∅)
           = Ret (Some (badger_error (Badger.ErrOpen "locked"))) w'
           ∧ lifecycle_kept (start 0 ∅) w' ∧ db w' = db (start 0 ∅)).
Proof.
  apply (Init_contract (start 0 ∅) (Badger.ErrOpen "locked")). reflexivity.
Defined.

(** X6. Closing and opening again.  After [Close] of an open handle,
    [InitDisklessMode] opens on an empty store whatever was stored
    before, while [InitPersistentMode] after a handle that was open in
    persistent mode finds every record again. *)
Theorem reopen (w : World) (d : Badger.DB) (Hopen : OpenOn w d) :
  ∃ w1, Close w = Ret None w1
        ∧ (∃ w2 d2, InitDisklessMode None w1 = Ret None w2 ∧ OpenOn w2 d2
                    ∧ Badger.table d2 = ∅)
        ∧ (Badger.InMemory (Badger.opt d) = false ->
           Badger.Dir (Badger.opt d) = STORAGE_PATH ->
           ∃ w2 d2, InitPersistentMode None w1 = Ret None w2 ∧ OpenOn w2 d2
                    ∧ Badger.table d2 = Badger.table d)
        ∧ (Badger.InMemory (Badger.opt d) = true ->
           ∃ w2 d2, InitPersistentMode None w1 = Ret None w2 ∧ OpenOn w2 d2
                    ∧ Badger.table d2 = default ∅ (fs w !! STORAGE_PATH)).
Proof.
  destruct Hopen as (Ho & Hdb & Hnc).
  unfold Close, Badger.IsClosed. rewrite Hdb, Hnc. cbn.
  eexists. split; [reflexivity|].
  unfold InitDisklessMode, InitPersistentMode, still_open. cbn.
  split; [|split].
  - eexists _, _. split; [reflexivity|]. repeat split.
  - intros Hmem Hdir. rewrite Hmem, Hdir.
    eexists _, _. split; [reflexivity|]. split; [repeat split|].
    cbn.
    pose proof (lookup_insert_eq
                  (fs w : gmap string (gmap (list byte) Badger.Item))
                  STORAGE_PATH (Badger.table d)) as Hl.
    unfold Badger.FS in *. now rewrite Hl.
  - intros Hmem. rewrite Hmem.
    eexists _, _. split; [reflexivity|]. repeat split.
Qed.

Lemma sample_disk_world_open : OpenOn sample_disk_world sample_disk_db.
Proof. repeat split. Qed.

Lemma reopen_witness :
  (∃ w1, Close sample_disk_world = Ret None w1
         ∧ ∃ w2 d2, InitPersistentMode None w1 = Ret None w2 ∧ OpenOn w2 d2
                    ∧ Badger.table d2 = Badger.table sample_disk_db)
  ∧ (∃ w1, Close sample_world = Ret None w1
           ∧ (∃ w2 d2, InitDisklessMode None w1 = Ret None w2 ∧ OpenOn w2 d2
                       ∧ Badger.table d2 = ∅)
           ∧ ∃ w2 d2, InitPersistentMode None w1 = Ret None w2 ∧ OpenOn w2 d2
                      ∧ Badger.table d2
                        = default ∅ (fs sample_world !! STORAGE_PATH)).
Proof.
  split.
  - destruct (reopen sample_disk_world sample_disk_db sample_disk_world_open)
      as (w1 & Hc & _ & Hdisk & _).
    exists w1. split; [exact Hc|]. apply Hdisk; reflexivity.
  - destruct (reopen sample_world sample_db sample_world_open)
      as (w1 & Hc & Hmem & _ & Hother).
    exists w1. split; [exact Hc|]. split; [exact Hmem|].
    apply Hother. reflexivity.
Defined.

(** X7. Reclamation loops are started and never stopped.  No operation
    lowers the number of running loops, [Close] leaves it as it is, and
    every step that takes the handle from not open to open adds one: a
    handle that is closed and opened again has two loops running. *)
Theorem reclamation_loops_accumulate (o : Op) (w w' : World)
    (Hstep : exec o w = Some w') :
  (gcLoops w <= gcLoops w')%nat
  ∧ (o = OpClose -> gcLoops w' = gcLoops w)
  ∧ (isOpen w = false -> isOpen w' = true -> gcLoops w' = S (gcLoops w)).
Proof.
  assert (∀ A (out : Outcome A),
            world_of out = Some w' -> ∃ r, out = Ret r w') as Hret.
  { intros A [r w0|msg]; cbn; [intros [= ->]; eauto | discriminate]. }
  assert (lifecycle_kept w w' ->
          (gcLoops w <= gcLoops w')%nat
          ∧ (o = OpClose -> gcLoops w' = gcLoops w)
          ∧ (isOpen w = false -> isOpen w' = true ->
             gcLoops w' = S (gcLoops w))) as Hkept.
  { intros (H1 & _ & _ & _ & H5). rewrite H1, H5.
    split; [lia|]. split; [reflexivity|]. congruence. }
  assert (∀ io opts r,
    (if still_open w then Ret (Some AlreadyOpenError) w
     else match Badger.Open io (fs w) opts with
          | inl err => Ret (Some (badger_error err)) (record (CallOpen opts) w)
          | inr d =>
              Ret None
                (set_isOpen true
                   (set_db (Some d) (spawn_gc (record (CallOpen opts) w))))
          end) = Ret r w' ->
    (gcLoops w <= gcLoops w')%nat
    ∧ (isOpen w = false -> isOpen w' = true -> gcLoops w' = S (gcLoops w)))
    as Hinit.
  { intros io opts r. destruct (still_open w).
    - intros [= _ <-]. split; [lia | congruence].
    - destruct (Badger.Open _ _ _); intros [= _ <-]; cbn.
      + split; [lia | congruence].
      + split; [lia | reflexivity]. }
  destruct o; cbn [exec] in Hstep;
    try (apply Hret in Hstep as [r Hrun]).
  - destruct (Hinit _ _ _ Hrun) as [H1 H2].
    split; [exact H1|]. split; [discriminate | exact H2].
  - destruct (Hinit _ _ _ Hrun) as [H1 H2].
    split; [exact H1|]. split; [discriminate | exact H2].
  - destruct (Close_run w) as (w1 & Hc & Ho & _ & _ & _ & Hg & _).
    rewrite Hc in Hrun. injection Hrun as _ <-. rewrite Hg.
    split; [lia|]. split; [reflexivity|]. congruence.
  - injection Hrun as _ <-. apply Hkept, lifecycle_kept_refl.
  - apply Hkept. exact (Set_kept _ _ _ _ Hrun).
  - apply Hkept. exact (SetWithTTL_kept _ _ _ _ _ Hrun).
  - apply Hkept. exact (proj1 (Get_kept _ _ _ _ Hrun)).
  - apply Hkept. exact (proj1 (GetBatch_kept _ _ _ Hrun)).
  - apply Hkept. exact (Remove_kept _ _ _ _ Hrun).
  - apply Hkept. exact (RemoveBatch_kept _ _ _ _ Hrun).
  - injection Hstep as <-. cbn.
    split; [lia|]. split; [reflexivity | congruence].
Qed.

Lemma reclamation_loops_accumulate_witness :
  ((gcLoops sample_world <= gcLoops sample_closed)%nat
   ∧ (OpClose = OpClose -> gcLoops sample_closed = gcLoops sample_world)
   ∧ (isOpen sample_world = false -> isOpen sample_closed = true ->
      gcLoops sample_closed = S (gcLoops sample_world)))
  ∧ ((gcLoops sample_closed <= gcLoops sample_reopened)%nat
     ∧ (OpInitDisklessMode None = OpClose ->
        gcLoops sample_reopened = gcLoops sample_closed)
     ∧ (isOpen sample_closed = false -> isOpen sample_reopened = true ->
        gcLoops sample_reopened = S (gcLoops sample_closed))).
Proof.
  split.
  - apply (reclamation_loops_accumulate OpClose sample_world sample_closed).
    vm_compute. reflexivity.
  - apply (reclamation_loops_accumulate (OpInitDisklessMode None)
             sample_closed sample_reopened).
    vm_compute. reflexivity.
Defined.

Example two_loops_after_reopening :
  gcLoops sample_world = 1%nat ∧ gcLoops sample_reopened = 2%nat.
Proof. split; reflexivity. Qed.

(* ===================================================================== *)
(** ** Writing, reading back, removing *)
(* ===================================================================== *)

Lemma OpenOn_with_table (w w1 : World) (d : Badger.DB)
    (tbl : gmap (list byte) Badger.Item) :
  OpenOn w d -> isOpen w1 = isOpen w -> db w1 = Some (with_table tbl d) ->
  OpenOn w1 (with_table tbl d).
Proof.
  intros (Ho & _ & Hnc) Hio Hdb. repeat split; [congruence | exact Hdb | exact Hnc].
Qed.

Lemma OpenOn_sleep (w : World) (d : Badger.DB) (dur : Z) :
  OpenOn w d -> OpenOn (sleep dur w) d.
Proof. intros (Ho & Hdb & Hnc). repeat split; assumption. Qed.

Lemma OpenOn_record (w : World) (d : Badger.DB) (c : Call) :
  OpenOn w d -> OpenOn (record c w) d.
Proof. intros (Ho & Hdb & Hnc). repeat split; assumption. Qed.

(** The world and engine instance after a successful write of [it] under
    [key], as [Set] leaves them. *)
Lemma Set_fresh_step (w : World) (d : Badger.DB) (data : list byte) :
  OpenOn w d -> data ≠ [] ->
  live_table d (clock w) !! MD5.sum data = None ->
  check_key (MD5.sum data) = None ->
  ∃ w1, Set_ data w = Ret (Some (MD5.sum data), None) w1
        ∧ OpenOn w1 (with_table (<[MD5.sum data := Badger.mkItem data 0]>
                                   (Badger.table d)) d)
        ∧ clock w1 = clock w.
Proof.
  intros Hopen Hne Hfree Hck. rewrite (Set_open w d data Hopen Hne).
  rewrite Hfree, Hck. eexists. split; [reflexivity|].
  split; [|reflexivity].
  apply (OpenOn_with_table w); [exact Hopen | reflexivity | reflexivity].
Qed.

Lemma live_permanent (now : Z) (v : list byte) :
  Badger.live now (Badger.mkItem v 0) = true.
Proof. reflexivity. Qed.


Lemma sample_fresh_open : OpenOn sample_fresh (Badger.mkDB sample_opts false ∅).
Proof. repeat split. Qed.

Lemma sample_payload_free :
  sample_payload ≠ []
  ∧ live_table (Badger.mkDB sample_opts false ∅) (clock sample_fresh)
      !! MD5.sum sample_payload = None
  ∧ check_key (MD5.sum sample_payload) = None.
Proof. split; [discriminate|]. split; vm_compute; reflexivity. Qed.


(** X9. Writing twice.  After a [Set] that succeeded, a second [Set] of
    the same bytes fails with [DuplicateKeyError], however much time has
    passed, and leaves the record in place. *)
Theorem Set_twice (w : World) (d : Badger.DB) (data : list byte) (dur : Z)
    (Hopen : OpenOn w d) (Hdata : data ≠ [])
    (Hfree : live_table d (clock w) !! MD5.sum data = None)
    (Hkey : check_key (MD5.sum data) = None) :
  ∃ key w1 w2,
    Set_ data w = Ret (Some key, None) w1
    ∧ Set_ data (sleep dur w1) = Ret (None, Some DuplicateKeyError) w2
    ∧ db w2 = db w1
    ∧ ∃ d2, db w2 = Some d2
            ∧ Badger.table d2 !! key = Some (Badger.mkItem data 0).
Proof.
  destruct (Set_fresh_step w d data Hopen Hdata Hfree Hkey)
    as (w1 & Hset & Hopen1 & Hclock).
  exists (MD5.sum data), w1, (record CallView (sleep dur w1)).
  split; [exact Hset|].
  rewrite (Set_open _ _ _ (OpenOn_sleep _ _ dur Hopen1) Hdata).
  rewrite live_table_lookup. cbn [with_table Badger.table].
  rewrite lookup_insert_eq, live_permanent.
  split; [reflexivity|]. split; [reflexivity|].
  eexists. split; [exact (proj1 (proj2 Hopen1))|].
  cbn. apply lookup_insert_eq.
Qed.

Lemma Set_twice_witness :
  ∃ key w1 w2,
    Set_ sample_payload sample_fresh = Ret (Some key, None) w1
    ∧ Set_ sample_payload (sleep 5000000000 w1)
      = Ret (None, Some DuplicateKeyError) w2
    ∧ db w2 = db w1
    ∧ ∃ d2, db w2 = Some d2
            ∧ Badger.table d2 !! key = Some (Badger.mkItem sample_payload 0).
Proof.
  exact (Set_twice sample_fresh _ sample_payload 5000000000 sample_fresh_open
           (proj1 sample_payload_free) (proj1 (proj2 sample_payload_free))
           (proj2 (proj2 sample_payload_free))).
Defined.



(* ===================================================================== *)
(** ** Expiry *)
(* ===================================================================== *)



(* ===================================================================== *)
(** ** What a write returns *)
(* ===================================================================== *)

Lemma write_result (e : Badger.Entry) (key : slice) (w w' : World)
    (r : slice * option error) :
  (txn ← db_NewTransaction true;
   match Badger.modify txn e with
   | (Some err, txn) =>
       _ ← txn_Discard txn; mret (None, Some (badger_error err))
   | (None, txn) =>
       err ← txn_Commit txn;
       match err with
       | Some err => mret (None, Some err)
       | None => mret (key, None)
       end
   end) w = Ret r w' ->
  (r = (key, None)
   ∧ ∃ d d', db w = Some d ∧ db w' = Some d'
             ∧ Badger.table d' = Badger.apply_entry (Badger.table d) e)
  ∨ (∃ err, r = (None, Some err) ∧ db w' = db w).
Proof.
  unfold mbind, M_bind, db_NewTransaction.
  destruct (db w) as [d|] eqn:Hd; [|discriminate].
  destruct (Badger.modify _ e) as [[err|] t] eqn:Hm.
  - intros [= <- <-]. right. eexists. split; [reflexivity | exact Hd].
  - apply modify_fresh_pending in Hm as [_ Hp].
    unfold txn_Commit. cbn [db record]. rewrite Hd.
    unfold Badger.Commit. rewrite Hp.
    destruct (Badger.discarded t).
    { cbn. intros [= <- <-]. right. eexists. split; reflexivity. }
    destruct (Badger.closed d).
    { cbn. intros [= <- <-]. right. eexists. split; reflexivity. }
    cbn. intros [= <- <-]. left. split; [reflexivity|].
    eexists _, _. split; [reflexivity|]. split; reflexivity.
Qed.

Lemma GenPK_key (data : list byte) (key : slice) :
  GenPK data = (key, None) -> data ≠ [] ∧ key = Some (MD5.sum data).
Proof.
  destruct data as [|b data]; [discriminate|].
  rewrite GenPK_nonempty by discriminate. intros [= <-].
  split; [discriminate | reflexivity].
Qed.

(** X12. A write returns a key or an error, never both and never
    neither.  When [Set] or [SetWithTTL] returns a key it is the 16-byte
    key [GenPK] derives from the payload, and the engine then holds the
    payload under that key ([SetWithTTL]: with expiry at [now + ttl]);
    when it returns an error the key is nil and the engine binding is
    exactly as it was. *)
Theorem write_returns_key_or_error (w w' : World) (data : list byte)
    (ttl : Z) (r : slice * option error) :
  (Set_ data w = Ret r w' ->
   (∃ key d', r = (Some key, None) ∧ GenPK data = (Some key, None)
              ∧ length key = 16%nat ∧ db w' = Some d'
              ∧ Badger.table d' !! key = Some (Badger.mkItem data 0))
   ∨ (∃ err, r = (None, Some err) ∧ db w' = db w))
  ∧ (SetWithTTL data ttl w = Ret r w' ->
     (∃ key d', r = (Some key, None) ∧ GenPK data = (Some key, None)
                ∧ length key = 16%nat ∧ db w' = Some d'
                ∧ Badger.table d' !! key
                  = Some (Badger.mkItem data
                            (Badger.uint64 (Badger.Unix (clock w + ttl)))))
     ∨ (∃ err, r = (None, Some err) ∧ db w' = db w)).
Proof.
  split.
  - unfold Set_. destruct (negb (isOpen w)).
    { intros [= <- <-]. right. eauto. }
    destruct (GenPK data) as [key [err|]] eqn:Hpk.
    { intros [= <- <-]. right. eauto. }
    apply GenPK_key in Hpk as [Hne ->].
    change (bytes (Some (MD5.sum data))) with (MD5.sum data).
    unfold mbind at 1, M_bind at 1.
    destruct (Get (MD5.sum data) w) as [[e gerr] w1|] eqn:Hget;
      [|discriminate].
    apply Get_kept in Hget as [_ Hdb1].
    destruct e as [e|].
    { intros [= <- <-]. right. eauto. }
    intros Hrun. apply write_result in Hrun
      as [(-> & d0 & d' & Hd0 & Hd' & Htbl)|(err & -> & Hdb')].
    + left. exists (MD5.sum data), d'.
      split; [reflexivity|]. split; [reflexivity|].
      split; [apply MD5Facts.sum_length|]. split; [exact Hd'|].
      rewrite Htbl. unfold Badger.apply_entry, Badger.NewEntry.
      cbn [Badger.bitDelete Badger.Key Badger.Value Badger.ExpiresAt].
      apply lookup_insert_eq.
    + right. exists err. split; [reflexivity | congruence].
  - unfold SetWithTTL. destruct (negb (isOpen w)).
    { intros [= <- <-]. right. eauto. }
    destruct (GenPK data) as [key [err|]] eqn:Hpk.
    { intros [= <- <-]. right. eauto. }
    apply GenPK_key in Hpk as [Hne ->].
    change (bytes (Some (MD5.sum data))) with (MD5.sum data).
    intros Hrun. apply write_result in Hrun
      as [(-> & d0 & d' & Hd0 & Hd' & Htbl)|(err & -> & Hdb')].
    + left. exists (MD5.sum data), d'.
      split; [reflexivity|]. split; [reflexivity|].
      split; [apply MD5Facts.sum_length|]. split; [exact Hd'|].
      rewrite Htbl.
      unfold Badger.apply_entry, Badger.WithTTL, Badger.NewEntry.
      cbn [Badger.bitDelete Badger.Key Badger.Value Badger.ExpiresAt].
      apply lookup_insert_eq.
    + right. exists err. split; [reflexivity | exact Hdb'].
Qed.

Lemma sample_step_SetWithTTL :
  SetWithTTL sample_payload 1000000000 sample_fresh
  = Ret (Some sample_key, None) (sleep (-2000000000) sample_ttl_world).
Proof. vm_compute. reflexivity. Qed.

Lemma write_returns_key_or_error_witness :
  ((∃ key d', (Some sample_key, None) = (Some key, @None error)
              ∧ GenPK sample_payload = (Some key, None)
              ∧ length key = 16%nat ∧ db sample_world = Some d'
              ∧ Badger.table d' !! key = Some (Badger.mkItem sample_payload 0))
   ∨ (∃ err, (Some sample_key, @None error) = (None, Some err)
             ∧ db sample_world = db sample_fresh))
  ∧ ((∃ key d', (Some sample_key, None) = (Some key, @None error)
                ∧ GenPK sample_payload = (Some key, None)
                ∧ length key = 16%nat
                ∧ db (sleep (-2000000000) sample_ttl_world) = Some d'
                ∧ Badger.table d' !! key
                  = Some (Badger.mkItem sample_payload
                            (Badger.uint64
                               (Badger.Unix (clock sample_fresh + 1000000000)))))
     ∨ (∃ err, (Some sample_key, @None error) = (None, Some err)
               ∧ db (sleep (-2000000000) sample_ttl_world) = db sample_fresh)).
Proof.
  split.
  - exact (proj1 (write_returns_key_or_error sample_fresh sample_world
                    sample_payload 0 _) sample_step_Set).
  - exact (proj2 (write_returns_key_or_error sample_fresh
                    (sleep (-2000000000) sample_ttl_world)
                    sample_payload 1000000000 _) sample_step_SetWithTTL).
Defined.

(* ===================================================================== *)
(** ** Batches *)
(* ===================================================================== *)

Lemma RemoveBatch_open (w : World) (d : Badger.DB)
    (keys : list (list byte)) :
  OpenOn w d ->
  ∃ w', RemoveBatch keys w
        = Ret (bool_decide (size (errs_after keys ∅) = 0%nat),
               errs_after keys ∅) w'
        ∧ OpenOn w' (with_table (table_after keys (Badger.table d)) d)
        ∧ clock w' = clock w.
Proof.
  intros Hopen. pose proof Hopen as (Ho & Hdb & Hnc).
  destruct (remove_loop_open keys ∅ (record (CallNewTransaction true) w) d)
    as (w1 & Hrun & Hdb1 & Ho1 & _ & Hc1); [repeat split; assumption|].
  exists (record CallDiscard w1). split.
  - unfold RemoveBatch, mbind, M_bind, db_NewTransaction.
    rewrite Hdb, Hrun. reflexivity.
  - split; [|exact Hc1]. repeat split; [exact Ho1 | exact Hdb1 | exact Hnc].
Qed.

Lemma errs_after_empty_iff (keys : list (list byte)) :
  errs_after keys ∅ = ∅ ↔ ∀ k, k ∈ keys -> k ≠ [] -> check_key k = None.
Proof.
  split.
  - intros Hempty k Hin Hne.
    destruct (check_key k) as [be|] eqn:Hc; [|reflexivity].
    pose proof (errs_after_records keys ∅ k be Hin Hne Hc) as Hrec.
    rewrite Hempty, lookup_empty in Hrec. discriminate.
  - intros Hall. apply map_eq. intros s. rewrite lookup_empty.
    destruct (errs_after keys ∅ !! s) as [e|] eqn:Hs; [|reflexivity].
    apply errs_after_origin in Hs as [Hs|(k & be & Hin & Hne & _ & Hc & _)].
    + rewrite lookup_empty in Hs. discriminate.
    + rewrite (Hall k Hin Hne) in Hc. discriminate.
Qed.

(** X13. The verdict of [RemoveBatch].  On an open store it returns
    [true] exactly when the engine accepts every key of positive length,
    and then the error mapping is empty and none of those keys has a
    record any more.  In particular it returns [true] when the keys were
    taken from the table, and when the keys cover the whole table the
    store is left empty and the [GetBatch] that follows returns an empty
    mapping. *)
Theorem RemoveBatch_verdict (w : World) (d : Badger.DB)
    (keys : list (list byte)) (Hopen : OpenOn w d) :
  ∃ ok errs w' d',
    RemoveBatch keys w = Ret (ok, errs) w' ∧ OpenOn w' d'
    ∧ (ok = true ↔ ∀ k, k ∈ keys -> k ≠ [] -> check_key k = None)
    ∧ (ok = true ->
       errs = ∅ ∧ ∀ k, k ∈ keys -> k ≠ [] -> Badger.table d' !! k = None)
    ∧ (keys_checked (Badger.table d) ->
       ((∀ k, k ∈ keys -> k ≠ [] -> is_Some (Badger.table d !! k)) ->
        ok = true)
       ∧ ((∀ k, is_Some (Badger.table d !! k) -> k ∈ keys) ->
          Badger.table d' = ∅
          ∧ GetBatch w' = Ret (Some ∅, None) (record CallView w'))).
Proof.
  destruct (RemoveBatch_open w d keys Hopen) as (w' & Hrun & Hopen' & _).
  eexists _, _, w', _. split; [exact Hrun|]. split; [exact Hopen'|].
  assert (bool_decide (size (errs_after keys ∅) = 0%nat) = true
          ↔ ∀ k, k ∈ keys -> k ≠ [] -> check_key k = None) as Hverdict.
  { rewrite bool_decide_eq_true, map_size_empty_iff.
    apply errs_after_empty_iff. }
  split; [exact Hverdict|]. split.
  - intros Hok. pose proof (proj1 Hverdict Hok) as Hall.
    split; [now apply errs_after_empty_iff|].
    intros k Hin Hne. cbn. rewrite table_after_lookup.
    rewrite decide_True; [reflexivity|]. split; [exact Hin | now apply Hall].
  - intros Hchecked. split.
    + intros Hfrom. apply Hverdict. intros k Hin Hne.
      destruct (Hfrom k Hin Hne) as [it Hit]. exact (Hchecked k it Hit).
    + intros Hcover.
      assert (table_after keys (Badger.table d) = ∅) as Hempty.
      { apply map_eq. intros k. rewrite table_after_lookup, lookup_empty.
        destruct (decide (k ∈ keys ∧ check_key k = None)) as [Hy|Hdec];
          [reflexivity|].
        destruct (Badger.table d !! k) as [it|] eqn:Hk; [|reflexivity].
        exfalso. apply Hdec. split; [apply Hcover; eauto|].
        exact (Hchecked k it Hk). }
      split; [exact Hempty|].
      rewrite (GetBatch_open w' _ Hopen'). unfold live_table.
      cbn [with_table Badger.table]. rewrite Hempty.
      rewrite map_filter_empty, fmap_empty, kmap_empty. reflexivity.
Qed.

Lemma RemoveBatch_verdict_witness :
  ∃ ok errs w' d',
    RemoveBatch [[]; sample_key] sample_world = Ret (ok, errs) w'
    ∧ OpenOn w' d'
    ∧ (ok = true ↔
       ∀ k, k ∈ [[]; sample_key] -> k ≠ [] -> check_key k = None)
    ∧ (ok = true ->
       errs = ∅
       ∧ ∀ k, k ∈ [[]; sample_key] -> k ≠ [] -> Badger.table d' !! k = None)
    ∧ (keys_checked (Badger.table sample_db) ->
       ((∀ k, k ∈ [[]; sample_key] -> k ≠ [] ->
              is_Some (Badger.table sample_db !! k)) ->
        ok = true)
       ∧ ((∀ k, is_Some (Badger.table sample_db !! k) ->
                k ∈ [[]; sample_key]) ->
          Badger.table d' = ∅
          ∧ GetBatch w' = Ret (Some ∅, None) (record CallView w'))).
Proof.
  exact (RemoveBatch_verdict sample_world sample_db [[]; sample_key]
           sample_world_open).
Defined.

Example RemoveBatch_clears_sample :
  ∃ w', RemoveBatch [[]; sample_key] sample_world = Ret (true, ∅) w'
        ∧ GetBatch w' = Ret (Some ∅, None) (record CallView w').
Proof.
  eexists. split; [vm_compute; reflexivity|]. vm_compute. reflexivity.
Qed.

(** X14. Order and repetition of the keys do not matter to
    [RemoveBatch]: two lists with the same keys give the same verdict,
    the same error mapping and the same table. *)
Theorem RemoveBatch_order_irrelevant (w : World) (d : Badger.DB)
    (keys keys' : list (list byte)) (Hopen : OpenOn w d)
    (Hsame : ∀ k, k ∈ keys ↔ k ∈ keys') :
  ∃ r w1 w2 d',
    RemoveBatch keys w = Ret r w1 ∧ RemoveBatch keys' w = Ret r w2
    ∧ db w1 = Some d' ∧ db w2 = Some d'.
Proof.
  destruct (RemoveBatch_open w d keys Hopen) as (w1 & Hrun1 & Hopen1 & _).
  destruct (RemoveBatch_open w d keys' Hopen) as (w2 & Hrun2 & Hopen2 & _).
  assert (errs_after keys' ∅ = errs_after keys ∅) as Herrs.
  { assert (∀ ks ks' : list (list byte),
              (∀ k, k ∈ ks -> k ∈ ks') ->
              ∀ s e, errs_after ks ∅ !! s = Some e ->
                     errs_after ks' ∅ !! s = Some e) as Hsub.
    { intros ks ks' Hin s e Hs.
      apply errs_after_origin in Hs
        as [Hs|(k & be & Hk & Hne & -> & Hc & ->)].
      - rewrite lookup_empty in Hs. discriminate.
      - apply errs_after_records; auto. }
    apply map_eq. intros s.
    destruct (errs_after keys ∅ !! s) as [e|] eqn:Hs.
    - apply (Hsub keys keys'); [intros k; apply Hsame | exact Hs].
    - destruct (errs_after keys' ∅ !! s) as [e'|] eqn:Hs'; [|reflexivity].
      apply (Hsub keys' keys) in Hs'; [congruence | intros k; apply Hsame]. }
  assert (table_after keys' (Badger.table d)
          = table_after keys (Badger.table d)) as Htbl.
  { apply map_eq. intros k. rewrite !table_after_lookup.
    destruct (decide (k ∈ keys ∧ check_key k = None)) as [[Hin Hc]|Hno].
    - rewrite decide_True; [reflexivity|]. split; [now apply Hsame | exact Hc].
    - rewrite decide_False; [reflexivity|].
      intros [Hin Hc]. apply Hno. split; [now apply Hsame | exact Hc]. }
  rewrite Herrs in Hrun2. rewrite Htbl in Hopen2.
  eexists _, w1, w2, _. split; [exact Hrun1|]. split; [exact Hrun2|].
  split; [exact (proj1 (proj2 Hopen1)) | exact (proj1 (proj2 Hopen2))].
Qed.

Lemma RemoveBatch_order_irrelevant_witness :
  ∃ r w1 w2 d',
    RemoveBatch [of_string "!badger!x"; sample_key] sample_world = Ret r w1
    ∧ RemoveBatch [sample_key; of_string "!badger!x"; sample_key] sample_world
      = Ret r w2
    ∧ db w1 = Some d' ∧ db w2 = Some d'.
Proof.
  apply (RemoveBatch_order_irrelevant sample_world sample_db
           [of_string "!badger!x"; sample_key]
           [sample_key; of_string "!badger!x"; sample_key] sample_world_open).
  intros k. rewrite !elem_of_cons. tauto.
Defined.



(* ===================================================================== *)
(** ** The reclamation loop over many ticks *)
(* ===================================================================== *)

Lemma count_events_app (p : GCEvent -> bool) (l1 l2 : list GCEvent) :
  count_events p (l1 ++ l2) = (count_events p l1 + count_events p l2)%nat.
Proof. unfold count_events. now rewrite List.filter_app, length_app. Qed.

Lemma again_counts (results : list (option Badger.Error)) :
  ∀ evs rest,
    again results = Some (evs, rest) ->
    count_events is_tick evs = 0%nat
    ∧ count_events is_log evs = 1%nat
    ∧ count_events is_sync evs = 1%nat
    ∧ (1 <= count_events is_pass evs)%nat
    ∧ (count_events is_pass evs + length rest = length results)%nat
    ∧ stops results = S (stops rest).
Proof.
  induction results as [|[err|] results IH]; intros evs rest;
    cbn [again]; [discriminate| |].
  - intros [= <- <-]. cbn. repeat split; lia.
  - destruct (again results) as [[evs0 rest0]|]; [|discriminate].
    cbn. intros [= <- <-].
    destruct (IH evs0 rest0 eq_refl) as (H1 & H2 & H3 & H4 & H5 & H6).
    unfold count_events in *. cbn. unfold stops in *. cbn.
    repeat split; lia.
Qed.

Lemma again_None_iff (results : list (option Badger.Error)) :
  again results = None ↔ stops results = 0%nat.
Proof.
  induction results as [|[err|] results IH]; cbn [again].
  - split; reflexivity.
  - split; discriminate.
  - unfold stops in *. cbn. rewrite <- IH.
    destruct (again results) as [[evs rest]|]; cbn; split;
      (discriminate || reflexivity).
Qed.

(** X16. The loop over [ticks] ticks.  It gets through them exactly
    when the engine reports something other than progress at least
    [ticks] times; it then has written the failure message once per tick
    and synced once per tick, whatever the passes reported, and has run
    at least one pass per tick. *)
Theorem runGC_counts (ticks : nat) (results : list (option Badger.Error)) :
  (is_Some (runGC ticks results) ↔ (ticks <= stops results)%nat)
  ∧ ∀ evs, runGC ticks results = Some evs ->
           count_events is_tick evs = ticks
           ∧ count_events is_log evs = ticks
           ∧ count_events is_sync evs = ticks
           ∧ (ticks <= count_events is_pass evs <= length results)%nat.
Proof.
  revert results. induction ticks as [|ticks IH]; intros results.
  - cbn [runGC]. split.
    + split; [intros _; lia | intros _; eauto].
    + intros evs [= <-]. cbn. repeat split; lia.
  - cbn [runGC]. destruct (again results) as [[evs1 rest]|] eqn:Hag.
    + destruct (again_counts results evs1 rest Hag)
        as (H1 & H2 & H3 & H4 & H5 & H6).
      destruct (IH rest) as [Hterm Hcount]. cbn. split.
      * rewrite H6. destruct (runGC ticks rest) as [evs2|]; cbn.
        -- split; [intros _|eauto].
           assert (ticks <= stops rest)%nat by (apply Hterm; eauto). lia.
        -- split; [intros [x Hx]; discriminate|].
           intros Hle. assert (is_Some (@None (list GCEvent))) as [x Hx]
             by (apply Hterm; lia). discriminate.
      * intros evs. destruct (runGC ticks rest) as [evs2|]; [|discriminate].
        cbn. intros [= <-].
        destruct (Hcount evs2 eq_refl) as (C1 & C2 & C3 & C4).
        change (EvTick GC_INTERVAL :: evs1 ++ evs2)
          with ([EvTick GC_INTERVAL] ++ evs1 ++ evs2).
        rewrite !count_events_app. cbn. repeat split; lia.
    + cbn. apply again_None_iff in Hag. split.
      * split; [intros [x Hx]; discriminate | lia].
      * discriminate.
Qed.

Lemma runGC_counts_witness :
  (is_Some (runGC 2 [None; Some Badger.ErrNoRewrite; None; None;
                     Some Badger.ErrRejected])
   ↔ (2 <= stops [None; Some Badger.ErrNoRewrite; None; None;
                  Some Badger.ErrRejected])%nat)
  ∧ ∀ evs, runGC 2 [None; Some Badger.ErrNoRewrite; None; None;
                    Some Badger.ErrRejected] = Some evs ->
           count_events is_tick evs = 2%nat
           ∧ count_events is_log evs = 2%nat
           ∧ count_events is_sync evs = 2%nat
           ∧ (2 <= count_events is_pass evs
              <= length [None; Some Badger.ErrNoRewrite; None; None;
                         Some Badger.ErrRejected])%nat.
Proof.
  exact (runGC_counts 2 [None; Some Badger.ErrNoRewrite; None; None;
                         Some Badger.ErrRejected]).
Defined.

Example runGC_two_ticks :
  runGC 2 [None; Some Badger.ErrNoRewrite; None; None; Some Badger.ErrRejected]
  = Some [EvTick GC_INTERVAL;
          EvRunValueLogGC DISCARD_RATIO; EvRunValueLogGC DISCARD_RATIO;
          EvLog gc_failed; EvSync;
          EvTick GC_INTERVAL;
          EvRunValueLogGC DISCARD_RATIO; EvRunValueLogGC DISCARD_RATIO;
          EvRunValueLogGC DISCARD_RATIO;
          EvLog gc_failed; EvSync]
  ∧ runGC 2 [None; Some Badger.ErrNoRewrite; None; None] = None.
Proof. split; reflexivity. Qed.

(* ===================================================================== *)
(** ** A time to live below the engine's resolution *)
(* ===================================================================== *)


